(** * Query cache hooks and function-spec retrieval: a shallow embedding

    This development embeds, as Rocq functions, the parts of the
    repository that the specification talks about:

    - [KeyDeriver]: the key derivation function [createQueryKey] of
      [src/hooks/cache/core], which the hooks import;
    - [Registry]: the subscription registry behind
      [ConvexQueryCacheContext] ([src/hooks/cache/provider]);
    - [Hooks]: [useQueries] and [useQuery] of [src/hooks/cache/hooks.tsx];
    - [Cli]: [getFunctionSpec] of [cli/utils.ts].

    Definitions come first, the theorems about them follow. *)

From Stdlib Require Import Ascii DecimalZ.
From stdpp Require Import gmap strings list sorting pretty.

Set Warnings "-register-all".
#[local] Open Scope Z_scope.
#[local] Open Scope list_scope.

(** ** Values shared by every component *)

(** Values of the restricted argument domain: primitives, sequences and
    nested mappings.  Numbers are the integers.  A mapping is kept as an
    association list, in insertion order, the way a JS object enumerates
    its keys.  [VOpaque] stands for a value outside the serializable
    domain (a handle that cannot be serialized); its payload is the
    identity of the handle. *)
Inductive Value : Type :=
  | VNull
  | VBool (b : bool)
  | VNum (z : Z)
  | VStr (s : string)
  | VArr (l : list Value)
  | VObj (l : list (string * Value))
  | VOpaque (n : nat).

(** The message of a JS [Error]. *)
Abbreviation JsError := string.

(** What a query yields to the UI: [undefined] while nothing is known, a
    value, or an instance of [Error]. *)
Inductive JsResult : Type :=
  | RUndefined
  | RValue (v : Value)
  | RError (e : JsError).

(** A listener handle: the string that [crypto.randomUUID] returns. *)
Abbreviation Handle := string.

(** [Record<string, Value>]: the argument mapping of one query. *)
Abbreviation Args := (list (string * Value)).

(** A function reference, identified by the name of the server function. *)
Abbreviation FunctionReference := string.

(** A derived query key. *)
Abbreviation QueryKey := string.

(** ** The key deriver

    [createQueryKey] is imported by the hooks from [./core], which is not
    among the sources.  The definitions of this module follow section 4.1
    of the specification: the argument mapping is canonicalized by
    recursively sorting mapping keys, then function reference and
    canonical arguments are serialized into one string. *)

Module KeyDeriver.

#[local] Open Scope char_scope.

(** The double-quote character, code 34. *)
Definition dquote : ascii := "034".

(** Modelled from the spec: the order in which mapping keys are sorted,
    entries compared by key. *)
Definition key_le (p q : string * Value) : Prop := String.le p.1 q.1.

#[global] Instance key_le_dec : RelDecision key_le.
Proof. intros p q. unfold key_le. apply _. Defined.

(** Modelled from the spec: the canonical form of a value, every mapping
    sorted by key, recursively. *)
Fixpoint canonicalize (v : Value) : Value :=
  match v with
  | VArr l => VArr (map canonicalize l)
  | VObj l =>
      VObj (merge_sort key_le (map (fun p => (p.1, canonicalize p.2)) l))
  | _ => v
  end.

(** Modelled from the spec: membership in the supported (serializable)
    value domain. *)
Fixpoint supported (v : Value) : bool :=
  match v with
  | VArr l => forallb supported l
  | VObj l => forallb (fun p => supported p.2) l
  | VOpaque _ => false
  | _ => true
  end.

(** Modelled from the spec: the text of a number, its decimal digits,
    most significant first. *)
Fixpoint uint_chars (u : Decimal.uint) : list ascii :=
  match u with
  | Decimal.Nil => []
  | Decimal.D0 u => "0" :: uint_chars u
  | Decimal.D1 u => "1" :: uint_chars u
  | Decimal.D2 u => "2" :: uint_chars u
  | Decimal.D3 u => "3" :: uint_chars u
  | Decimal.D4 u => "4" :: uint_chars u
  | Decimal.D5 u => "5" :: uint_chars u
  | Decimal.D6 u => "6" :: uint_chars u
  | Decimal.D7 u => "7" :: uint_chars u
  | Decimal.D8 u => "8" :: uint_chars u
  | Decimal.D9 u => "9" :: uint_chars u
  end.

(** Modelled from the spec: the text of a signed number. *)
Definition int_chars (d : Decimal.int) : list ascii :=
  match d with
  | Decimal.Pos u => uint_chars u
  | Decimal.Neg u => "-" :: uint_chars u
  end.

(** Modelled from the spec: a character of a string inside quotes; the
    quote and the backslash are escaped with a backslash. *)
Definition escape_char (c : ascii) : list ascii :=
  if decide (c = dquote) then ["\"; dquote]
  else if decide (c = "\") then ["\"; "\"]
  else [c].

(** Modelled from the spec: the characters of a string, escaped. *)
Fixpoint escape (s : list ascii) : list ascii :=
  match s with
  | [] => []
  | c :: s => escape_char c ++ escape s
  end.

(** Modelled from the spec: the text of a string, between quotes. *)
Definition quote (s : string) : list ascii :=
  dquote :: escape (Strings.String.list_ascii_of_string s) ++ [dquote].

(** Modelled from the spec: the items of a sequence or mapping,
    separated by commas. *)
Fixpoint join_comma (xs : list (list ascii)) : list ascii :=
  match xs with
  | [] => []
  | x :: rest =>
      x ++ match rest with
           | [] => []
           | _ :: _ => "," :: join_comma rest
           end
  end.

(** Modelled from the spec: the serialized form of a value.  Each kind of
    value has its own syntax, so the number 1 and the string "1" differ.
    A value outside the supported domain is never serialized ([derive]
    answers [None] first); it is given the empty text. *)
Fixpoint encode (v : Value) : list ascii :=
  match v with
  | VNull => ["n"; "u"; "l"; "l"]
  | VBool true => ["t"; "r"; "u"; "e"]
  | VBool false => ["f"; "a"; "l"; "s"; "e"]
  | VNum z => int_chars (Z.to_int z)
  | VStr s => quote s
  | VArr l => "[" :: join_comma (map encode l) ++ ["]"]
  | VObj l =>
      "{" :: join_comma (map (fun p => quote p.1 ++ ":" :: encode p.2) l)
          ++ ["}"]
  | VOpaque _ => []
  end.

(** Modelled from the spec: the text of a key, the pair of the function
    reference and the canonical arguments. *)
Definition key_text (f : FunctionReference) (args : Args) : list ascii :=
  "[" :: quote f ++ "," :: encode (canonicalize (VObj args)) ++ ["]"].

(** Modelled from the spec: [derive(functionRef, args)], the key of a
    query identity, or [None] ("undefined") when the argument mapping
    holds a value outside the supported domain. *)
Definition derive (f : FunctionReference) (args : Args) : option QueryKey :=
  if supported (VObj args)
  then Some (Strings.String.string_of_list_ascii (key_text f args))
  else None.

(** Modelled from the spec: equivalence of argument values, deep equality
    irrespective of the insertion order of mapping keys. *)
Inductive equiv : Value -> Value -> Prop :=
  | equiv_null : equiv VNull VNull
  | equiv_bool b : equiv (VBool b) (VBool b)
  | equiv_num z : equiv (VNum z) (VNum z)
  | equiv_str s : equiv (VStr s) (VStr s)
  | equiv_opaque n : equiv (VOpaque n) (VOpaque n)
  | equiv_arr l l' : Forall2 equiv l l' -> equiv (VArr l) (VArr l')
  | equiv_obj l l1 l' :
      l ≡ₚ l1 ->
      Forall2 (fun p q => p.1 = q.1 /\ equiv p.2 q.2) l1 l' ->
      equiv (VObj l) (VObj l').

(** A JS object holds each key once: in a value that comes from JS the
    keys of every mapping are pairwise distinct. *)
Fixpoint well_formed (v : Value) : bool :=
  match v with
  | VArr l => forallb well_formed l
  | VObj l =>
      bool_decide (NoDup l.*1) && forallb (fun p => well_formed p.2) l
  | _ => true
  end.

(** One mapping entry with its value in canonical form. *)
Definition canon_entry (p : string * Value) : string * Value :=
  (p.1, canonicalize p.2).

(** The characters a serialized number is made of. *)
Definition is_num_char (c : ascii) : bool :=
  bool_decide (c ∈ ["-"; "0"; "1"; "2"; "3"; "4"; "5"; "6"; "7"; "8"; "9"]).

(** A text that cannot continue a number: it is empty or starts with a
    character that no number holds. *)
Definition ends_number (r : list ascii) : Prop :=
  match r with
  | [] => True
  | c :: _ => is_num_char c = false
  end.

(** The characters a serialized value can start with. *)
Definition head_char (c : ascii) : bool :=
  bool_decide (c ∈ ["n"; "t"; "f"; dquote; "["; "{"]) || is_num_char c.

End KeyDeriver.


(** ** The subscription registry

    The registry that the hooks find in [ConvexQueryCacheContext] is
    defined in [./provider], which is not among the sources.  The
    definitions of this module follow sections 3, 4.2 and 6 of the
    specification.  [Notify] is the type of the notify callbacks, which
    the registry only stores and hands back. *)

Module Registry.

(** Modelled from the spec: the calls the registry makes on the transport
    collaborator, [open(functionRef, args, onUpdate)], answering the
    subscription handle [sub], and [close(sub)]. *)
Inductive TransportCall : Type :=
  | TOpen (sub : nat) (f : FunctionReference) (args : Args)
  | TClose (sub : nat).

(** Modelled from the spec: one cache entry per live query key, with its
    key, the transport subscription it owns, the latest observed value or
    error ([RUndefined]: no value yet) and the attached listener handles,
    in attachment order. *)
Record CacheEntry : Type := {
  ce_key : QueryKey;
  ce_sub : nat;
  ce_value : JsResult;
  ce_listeners : list Handle;
}.

(** Whether a transport call is a [close]. *)
Definition is_close (c : TransportCall) : bool :=
  match c with TClose _ => true | TOpen _ _ _ => false end.


(** How often [close] was invoked among transport calls. *)
Definition close_count (calls : list TransportCall) : nat :=
  length (List.filter is_close calls).


Section WithNotify.
Context {Notify : Type}.

(** Modelled from the spec: the registry state, the table from key to
    entry, the arena from listener handle to its key and callback, the
    next transport subscription handle and the transport calls made so
    far, oldest first. *)
Record State : Type := {
  entries : gmap QueryKey CacheEntry;
  subs : gmap Handle (QueryKey * Notify);
  next_sub : nat;
  transport : list TransportCall;
}.

(** Modelled from the spec: the registry of a new provider, without
    entries. *)
Definition empty : State :=
  {| entries := ∅; subs := ∅; next_sub := 0%nat; transport := [] |}.

(** Modelled from the spec: [probe(key)], the cached value or error of
    the entry of [key], or "absent" ([RUndefined]); no side effect. *)
Definition probe (k : QueryKey) (st : State) : JsResult :=
  match entries st !! k with
  | Some e => ce_value e
  | None => RUndefined
  end.

(** Modelled from the spec: [start(listenerHandle, key, functionRef,
    args, notify)].  Without an entry for [key] one is created and the
    transport subscription is opened; the listener is attached.  The
    caller draws a fresh handle for every call. *)
Definition start (h : Handle) (k : QueryKey) (f : FunctionReference)
    (a : Args) (n : Notify) (st : State) : State :=
  match entries st !! k with
  | None =>
      {| entries :=
           <[k := {| ce_key := k; ce_sub := next_sub st;
                     ce_value := RUndefined; ce_listeners := [h] |}]>
             (entries st);
         subs := <[h := (k, n)]> (subs st);
         next_sub := S (next_sub st);
         transport := transport st ++ [TOpen (next_sub st) f a] |}
  | Some e =>
      {| entries :=
           <[k := {| ce_key := ce_key e; ce_sub := ce_sub e;
                     ce_value := ce_value e;
                     ce_listeners := ce_listeners e ++ [h] |}]>
             (entries st);
         subs := <[h := (k, n)]> (subs st);
         next_sub := next_sub st;
         transport := transport st |}
  end.

(** Modelled from the spec: [end(listenerHandle)].  The handle is
    detached from the key it is attached to; the last listener of an
    entry closes the transport subscription and removes the entry; a
    handle that is not attached is a no-op. *)
Definition end_ (h : Handle) (st : State) : State :=
  match subs st !! h with
  | None => st
  | Some (k, _) =>
      match entries st !! k with
      | None =>
          {| entries := entries st; subs := delete h (subs st);
             next_sub := next_sub st; transport := transport st |}
      | Some e =>
          match filter (fun x => x ≠ h) (ce_listeners e) with
          | [] =>
              {| entries := delete k (entries st);
                 subs := delete h (subs st);
                 next_sub := next_sub st;
                 transport := transport st ++ [TClose (ce_sub e)] |}
          | rest =>
              {| entries :=
                   <[k := {| ce_key := ce_key e; ce_sub := ce_sub e;
                             ce_value := ce_value e;
                             ce_listeners := rest |}]> (entries st);
                 subs := delete h (subs st);
                 next_sub := next_sub st;
                 transport := transport st |}
          end
      end
  end.

(** Modelled from the spec: the push callback of the transport for
    [key].  The cached value is updated, then every attached listener
    is notified, in attachment order; the notifications are returned
    as pairs of a callback and the value it is called with.  A failure
    reported by the transport is pushed as an [RError] value. *)
Definition push (k : QueryKey) (r : JsResult) (st : State)
    : State * list (Notify * JsResult) :=
  match entries st !! k with
  | None => (st, [])
  | Some e =>
      ({| entries :=
            <[k := {| ce_key := ce_key e; ce_sub := ce_sub e;
                      ce_value := r;
                      ce_listeners := ce_listeners e |}]> (entries st);
          subs := subs st;
          next_sub := next_sub st;
          transport := transport st |},
       omap (fun h => (fun kn => (kn.2, r)) <$> subs st !! h)
            (ce_listeners e))
  end.

(** [N] start calls for one key, one per listener, in order. *)
Definition starts (ls : list (Handle * Notify)) (k : QueryKey)
    (f : FunctionReference) (a : Args) (st : State) : State :=
  foldl (fun st l => start l.1 k f a l.2 st) st ls.

(** End calls, in order. *)
Definition ends (hs : list Handle) (st : State) : State :=
  foldl (fun st h => end_ h st) st hs.

(** The transport calls made between state [st0] and a later state. *)
Definition calls_since (st0 st : State) : list TransportCall :=
  drop (length (transport st0)) (transport st).

(** The listeners [L] are exactly the ones attached to [k], whose entry
    owns subscription [s], and the transport calls so far are [log]. *)
Definition attached_to (k : QueryKey) (s : nat) (L : list Handle)
    (log : list TransportCall) (st : State) : Prop :=
  (exists v, entries st !! k =
     Some {| ce_key := k; ce_sub := s; ce_value := v;
             ce_listeners := L |}) /\
  (forall h, h ∈ L -> exists n, subs st !! h = Some (k, n)) /\
  transport st = log.

End WithNotify.

Arguments State : clear implicits.

End Registry.

(** ** The hooks of [hooks.tsx] *)

Module Hooks.

(** One entry of [RequestForQueries]: [{ query, args }]. *)
Record Request : Type := {
  query : FunctionReference;
  args : Args;
}.

(** [RequestForQueries]: the object given to [useQueries], as the list
    of its entries in the order of [Object.keys]. *)
Abbreviation RequestForQueries := (list (string * Request)).

(** The setter [setV] that [useState] returns, identified by the index
    of its state slot in the component. *)
Abbreviation Setter := nat.

(** State slot [i] after its setter was called with [r]. *)
Definition set_state (i : Setter) (r : JsResult) (slots : list JsResult)
    : list JsResult :=
  <[i := r]> slots.

(** The calls a hook makes on its collaborators, in program order. *)
Inductive Call : Type :=
  | CreateQueryKey (q : FunctionReference) (a : Args)
  | Probe (k : QueryKey)
  | Start (id : Handle) (k : QueryKey) (q : FunctionReference) (a : Args)
          (setV : Setter)
  | End (id : Handle).

(** An element of [listens]: [[queryKey, query, args, setV]]. *)
Record Listen : Type := {
  queryKey : option QueryKey;
  l_query : FunctionReference;
  l_args : Args;
  setV : Setter;
}.

(** How a call of a hook completes. *)
Inductive Outcome (A : Type) : Type :=
  | Threw (e : JsError)
  | Returned (x : A).
Arguments Threw {A} e.
Arguments Returned {A} x.

(** What one render of a hook does: the calls made, the state slots
    after the render, the effect handed to [useEffect] (its captured
    [listens]), and the completion. *)
Record Render (A : Type) : Type := {
  r_calls : list Call;
  r_slots : list JsResult;
  r_effect : option (list Listen);
  r_outcome : Outcome A;
}.
Arguments r_calls {A} _.
Arguments r_slots {A} _.
Arguments r_effect {A} _.
Arguments r_outcome {A} _.

(** The message of the error thrown outside a provider. *)
Definition provider_missing : JsError :=
  "Could not find `ConvexQueryCacheContext`! This `useQuery` implementation must be used in the React component "
  +:+ "tree under `ConvexQueryCacheProvider`. Did you forget it? ".

(** The registry object found in [ConvexQueryCacheContext]: what a
    render reads from it.  [start] and [end] return nothing and are
    recorded as calls. *)
Class CacheRegistry (R : Type) : Type :=
  probe : R -> QueryKey -> JsResult.

(** [useState(initialValue)] for state slot [i]: the stored state, or
    the initial value when the slot is new (first render).  This is
    React's behaviour for a render that makes the same hook calls as the
    render before ([same_hooks], defined below); React throws otherwise,
    which is not modelled. *)
Definition useState (slots : list JsResult) (i : nat) (initialValue : JsResult)
    : JsResult :=
  default initialValue (slots !! i).

(** The variables of the loop of [useQueries] (lines 69-76), with the
    state slots and the calls made so far. *)
Record Loop : Type := {
  results : gmap string JsResult;
  listens : list Listen;
  qkeys : list (option QueryKey);
  new_slots : list JsResult;
  calls : list Call;
}.

(** The variables before the first iteration. *)
Definition loop_start : Loop :=
  {| results := ∅; listens := []; qkeys := []; new_slots := [];
     calls := [] |}.

(** The argument of [useQuery] after the query: arguments, or the
    string "skip". *)
Inductive ArgsOrSkip : Type :=
  | Skip
  | WithArgs (a : Args).

Section WithRegistry.
Context {R : Type} `{!CacheRegistry R}.

(** [createQueryKey] of [./core], taken as a parameter. *)
Variable createQueryKey : FunctionReference -> Args -> option QueryKey.

(** [crypto.randomUUID]: the handle produced by the [n]-th call. *)
Variable randomUUID : nat -> Handle.

(** One iteration of the loop over [Object.keys(queries)]
    (lines 77-89).  The assignment [results[key] = v] is modelled for
    the keys that it creates, which are all but [__proto__]. *)
Definition loop_body (registry : option R) (slots : list JsResult)
    (acc : Loop) (entry : string * Request) : Loop :=
  let key := entry.1 in
  let query := query entry.2 in
  let args := args entry.2 in
  let queryKey := createQueryKey query args in
  let probed :=
    match registry, queryKey with
    | Some reg, Some k => (probe reg k, [Probe k])
    | _, _ => (RUndefined, [])
    end in
  let initialValue := probed.1 in
  let slot := length (new_slots acc) in
  let v := useState slots slot initialValue in
  {| results := <[key := v]> (results acc);
     listens := listens acc ++
       [{| queryKey := queryKey; l_query := query; l_args := args;
           setV := slot |}];
     qkeys := qkeys acc ++ [queryKey];
     new_slots := new_slots acc ++ [v];
     calls := calls acc ++ CreateQueryKey query args :: probed.2 |}.

(** The initial value computed for one entry (lines 81-84). *)
Definition initial_of (registry : option R) (e : string * Request)
    : JsResult :=
  match registry, createQueryKey (query e.2) (args e.2) with
  | Some reg, Some k => probe reg k
  | _, _ => RUndefined
  end.

(** The probe calls made for one entry (line 84). *)
Definition probes_of (registry : option R) (e : string * Request)
    : list Call :=
  match registry, createQueryKey (query e.2) (args e.2) with
  | Some _, Some k => [Probe k]
  | _, _ => []
  end.

(** The element pushed on [listens] for one entry (line 87). *)
Definition listen_of (slot : nat) (e : string * Request) : Listen :=
  {| queryKey := createQueryKey (query e.2) (args e.2);
     l_query := query e.2; l_args := args e.2; setV := slot |}.

(** The render part of [useQueries] (lines 65-97 and 120): the loop,
    then the error when there is no registry, else the effect is
    registered and [results] returned. *)
Definition useQueries (registry : option R) (queries : RequestForQueries)
    (slots : list JsResult) : Render (gmap string JsResult) :=
  let loop := foldl (loop_body registry slots) loop_start queries in
  match registry with
  | None =>
      {| r_calls := calls loop; r_slots := new_slots loop;
         r_effect := None; r_outcome := Threw provider_missing |}
  | Some _ =>
      {| r_calls := calls loop; r_slots := new_slots loop;
         r_effect := Some (listens loop);
         r_outcome := Returned (results loop) |}
  end.

(** One run of the effect of [useQueries]: the calls made, the cleanup
    it returns ([None]: it returned nothing) and the state of the UUID
    source afterwards. *)
Record EffectRun : Type := {
  e_calls : list Call;
  e_cleanup : option (list Handle);
  e_rng : nat;
}.

(** The loop of the effect (lines 100-109) from a given point: [ids]
    and the calls so far are carried along; an undefined query key
    returns from the effect at once (line 104). *)
Fixpoint effect_loop (todo : list Listen) (rng : nat) (ids : list Handle)
    (made : list Call) : EffectRun :=
  match todo with
  | [] => {| e_calls := made; e_cleanup := Some ids; e_rng := rng |}
  | l :: rest =>
      match queryKey l with
      | None => {| e_calls := made; e_cleanup := None; e_rng := rng |}
      | Some k =>
          let id := randomUUID rng in
          effect_loop rest (S rng) (ids ++ [id])
            (made ++ [Start id k (l_query l) (l_args l) (setV l)])
      end
  end.

(** The effect of [useQueries] (lines 99-115). *)
Definition effect (listens : list Listen) (rng : nat) : EffectRun :=
  effect_loop listens rng [] [].

(** The cleanup function that the effect returns (lines 110-114). *)
Definition cleanup (ids : list Handle) : list Call :=
  map End ids.

(** [useQuery] (lines 139-164); [queryArgs] is the rest parameter, of
    which only the first element is read. *)
Definition useQuery (registry : option R) (query : FunctionReference)
    (queryArgs : option ArgsOrSkip) (slots : list JsResult)
    : Render JsResult :=
  let args := default (WithArgs []) queryArgs in
  let params : RequestForQueries :=
    match args with
    | Skip => []
    | WithArgs a => [("_default"%string, {| query := query; args := a |})]
    end in
  let rendered := useQueries registry params slots in
  let outcome :=
    match r_outcome rendered with
    | Threw e => Threw e
    | Returned results =>
        let result := default RUndefined (results !! "_default"%string) in
        match result with
        | RError e => Threw e
        | _ => Returned result
        end
    end in
  {| r_calls := r_calls rendered; r_slots := r_slots rendered;
     r_effect := r_effect rendered; r_outcome := outcome |}.

End WithRegistry.

(** The registry of the specification, seen through the interface the
    hooks use. *)
#[global] Instance spec_registry : CacheRegistry (Registry.State Setter) :=
  fun st k => Registry.probe k st.

(** The registry calls of a hook, carried out on the registry of the
    specification. *)
Definition run_call (st : Registry.State Setter) (c : Call)
    : Registry.State Setter :=
  match c with
  | Start id k q a setV => Registry.start id k q a setV st
  | End id => Registry.end_ id st
  | CreateQueryKey _ _ | Probe _ => st
  end.

(** The same for a sequence of calls, in order. *)
Definition run_calls (cs : list Call) (st : Registry.State Setter)
    : Registry.State Setter :=
  foldl run_call st cs.

End Hooks.

(** ** [getFunctionSpec] of [cli/utils.ts] *)

Module Cli.

(** What a path of the file system holds. *)
Inductive Node : Type :=
  | File (content : string)
  | Directory.

(** The file system: a table from path to node; a file is known by one
    path. *)
Abbreviation FileSystem := (gmap string Node).

(** What [spawnSync] returns: the exit status ([None]: the child did not
    run to an exit), and what the child wrote on its standard output and
    standard error. *)
Record SpawnResult : Type := {
  status : option Z;
  stdout : string;
  stderr : string;
}.

(** What the process finds around it: [os.tmpdir()], [Date.now()], and
    how a spawned command with given arguments behaves. *)
Record Env : Type := {
  tmpdir : string;
  now : Z;
  spawnSync : string -> list string -> SpawnResult;
}.

(** The messages written on the console. *)
Inductive Message : Type :=
  | ProdWithFilePath
  | FileNotFound (filePath : string)
  | RetrievalFailed
  | DeleteFailed (e : JsError).

(** The state the function works on: the file system, the console, and
    the commands spawned so far. *)
Record World : Type := {
  fs : FileSystem;
  console : list Message;
  spawned : list (list string);
}.

(** How a call completes: it returns, the process exits
    ([process.exit]), or an exception leaves the function. *)
Inductive Completion : Type :=
  | Return (content : string)
  | Exit (code : Z)
  | Throw (e : JsError).

(** JS truthiness of [filePath?: string]: given and not empty. *)
Definition given (filePath : option string) : bool :=
  match filePath with
  | Some p => bool_decide (p ≠ ""%string)
  | None => false
  end.

(** JS truthiness of [prod?: boolean]. *)
Definition truthy (prod : option bool) : bool :=
  match prod with
  | Some b => b
  | None => false
  end.

(** [fs.existsSync]. *)
Definition existsSync (fs : FileSystem) (p : string) : bool :=
  bool_decide (is_Some (fs !! p)).

(** [fs.readFileSync(p, "utf-8")]: the content, or the exception. *)
Definition readFileSync (fs : FileSystem) (p : string) : JsError + string :=
  match fs !! p with
  | Some (File content) => inr content
  | Some Directory => inl "EISDIR"%string
  | None => inl "ENOENT"%string
  end.

(** [openSync(p, "w")]: the file is created or truncated. *)
Definition openSync (fs : FileSystem) (p : string) : JsError + FileSystem :=
  match fs !! p with
  | Some Directory => inl "EISDIR"%string
  | _ => inr (<[p := File ""%string]> fs)
  end.

(** [fs.unlinkSync]: the file is removed. *)
Definition unlinkSync (fs : FileSystem) (p : string) : JsError + FileSystem :=
  match fs !! p with
  | Some (File _) => inr (delete p fs)
  | Some Directory => inl "EPERM"%string
  | None => inl "ENOENT"%string
  end.

(** [console.error] and [console.warn]. *)
Definition log (m : Message) (w : World) : World :=
  {| fs := fs w; console := console w ++ [m]; spawned := spawned w |}.

(** [path.join] of a directory and a file name, for a directory in
    normal form ([normal_dir], defined below): the two are joined by a
    slash.  The normalization that [path.join] does on other directories
    is not modelled. *)
Definition path_join (dir name : string) : string :=
  dir +:+ "/" +:+ name.

(** The temporary file (line 38). *)
Definition tempFile (env : Env) : string :=
  path_join (tmpdir env) ("function-spec-" +:+ pretty (now env) +:+ ".json").

(** The arguments of the introspection command (lines 42-43). *)
Definition command (prod : option bool) : list string :=
  ["convex"; "function-spec"]%string
    ++ (if truthy prod then ["--prod"%string] else []).

(** The [try] block (lines 41-54): its result is the content read, or the
    exception thrown. *)
Definition try_block (env : Env) (prod : option bool) (w : World)
    : World * (JsError + string) :=
  match openSync (fs w) (tempFile env) with
  | inl e => (w, inl e)
  | inr opened =>
      let result := spawnSync env "npx" (command prod) in
      let w' :=
        {| fs := <[tempFile env := File (stdout result)]> opened;
           console := console w;
           spawned := spawned w ++ [("npx"%string :: command prod)] |} in
      if bool_decide (status result = Some 0) then
        (w', readFileSync (fs w') (tempFile env))
      else
        (w', inl (if bool_decide (stderr result = ""%string)
                  then "Failed without error message"%string
                  else stderr result))
  end.

(** The [catch] block (lines 56-62): a message, then [process.exit(1)]. *)
Definition catch_block (w : World) : World * Completion :=
  (log RetrievalFailed w, Exit 1).

(** The [finally] block (lines 64-73). *)
Definition finally_block (env : Env) (w : World) : World :=
  match unlinkSync (fs w) (tempFile env) with
  | inr removed =>
      {| fs := removed; console := console w; spawned := spawned w |}
  | inl e => log (DeleteFailed e) w
  end.

(** [getFunctionSpec] (lines 25-78).  [process.exit] ends the process
    where it is called: nothing after it runs, and neither does the
    [finally] block of a [try] statement it is called in. *)
Definition getFunctionSpec (env : Env) (prod : option bool)
    (filePath : option string) (w : World) : World * Completion :=
  let path := default ""%string filePath in
  if given filePath && truthy prod then
    (log ProdWithFilePath w, Exit 1)
  else if given filePath && negb (existsSync (fs w) path) then
    (log (FileNotFound path) w, Exit 1)
  else if given filePath then
    match readFileSync (fs w) path with
    | inr content => (w, Return content)
    | inl e => (w, Throw e)
    end
  else
    match try_block env prod w with
    | (w', inr content) => (finally_block env w', Return content)
    | (w', inl _) => catch_block w'
    end.

(** A run outside a Convex project: the introspection command fails with
    exit status 1. *)
Definition failing_env : Env :=
  {| tmpdir := "/tmp";
     now := 1700000000000;
     spawnSync := fun _ _ =>
       {| status := Some 1; stdout := "";
          stderr := "No CONVEX_DEPLOYMENT set" |} |}.

(** An empty file system, a silent console, nothing spawned yet. *)
Definition fresh_world : World :=
  {| fs := ∅; console := []; spawned := [] |}.

End Cli.

(** ** Projections of hook calls and sample inputs *)

(** The handles that a sequence of hook calls starts, in order. *)
Definition started_handles (cs : list Hooks.Call) : list Handle :=
  omap (fun c => match c with
                 | Hooks.Start id _ _ _ _ => Some id
                 | _ => None
                 end) cs.

(** Whether a hook call is a [start]. *)
Definition is_start (c : Hooks.Call) : bool :=
  match c with Hooks.Start _ _ _ _ _ => true | _ => false end.

(** A run inside a Convex project: the introspection command prints a
    manifest and exits with status 0. *)
Definition working_env : Cli.Env :=
  {| Cli.tmpdir := "/tmp";
     Cli.now := 1700000000000;
     Cli.spawnSync := fun _ _ =>
       {| Cli.status := Some 0; Cli.stdout := "{}"; Cli.stderr := "" |} |}.

(** Two queries of one component, the second with arguments that have
    no key. *)
Definition sample_queries : Hooks.RequestForQueries :=
  [("a"%string, {| Hooks.query := "listMessages"; Hooks.args := [] |});
   ("b"%string, {| Hooks.query := "listMessages";
                   Hooks.args := [("h"%string, VOpaque 0)] |})].

(** A registry that holds the value [null] for the first of them. *)
Definition sample_registry : Registry.State nat :=
  (Registry.push
     (default ""%string (KeyDeriver.derive "listMessages" []))
     (RValue VNull)
     (Registry.start "A"
        (default ""%string (KeyDeriver.derive "listMessages" []))
        "listMessages" [] 0%nat Registry.empty)).1.

(** ** Where the model of the hooks and of the paths applies *)

(** React keeps the state of a component by the order of its hook calls
    and refuses a render that makes other hook calls than the render
    before.  A render of [useQueries] is within this rule when the
    component holds no state yet (first render) or holds one state slot
    per requested query. *)
Definition same_hooks (slots : list JsResult)
    (queries : Hooks.RequestForQueries) : Prop :=
  slots = [] \/ length slots = length queries.

(** The key that an assignment [results[key] = v] does not create on a
    plain object. *)
Definition proto_key : string := "__proto__".

(** The segments of a path, split at the slashes. *)
Fixpoint path_segments (s : list ascii) : list (list ascii) :=
  match s with
  | [] => [[]]
  | c :: s' =>
      if decide (c = "/"%char) then [] :: path_segments s'
      else match path_segments s' with
           | seg :: rest => (c :: seg) :: rest
           | [] => [[c]]
           end
  end.

(** A segment that [path.normalize] keeps as it is: not empty, not [.]
    and not [..]. *)
Definition plain_segment (seg : list ascii) : bool :=
  negb (bool_decide (seg = []))
  && negb (bool_decide (seg = ["."%char]))
  && negb (bool_decide (seg = ["."%char; "."%char])).

(** A directory path in the normal form of [path.normalize], without a
    trailing slash: for such a directory [path.join(dir, name)] is
    [dir/name].  The root [/] alone is not of this form. *)
Definition normal_dir (dir : string) : bool :=
  match path_segments (Strings.String.list_ascii_of_string dir) with
  | first :: rest =>
      negb (bool_decide (dir = ""%string))
      && (bool_decide (first = []) || plain_segment first)
      && forallb plain_segment rest
  | [] => false
  end.

(** * Theorems *)

Example normal_dir_examples :
  normal_dir "/tmp" = true /\ normal_dir "/var/folders/x1" = true /\
  normal_dir "/" = false /\ normal_dir "/tmp/" = false /\
  normal_dir "/a//b" = false /\ normal_dir "/a/../b" = false /\
  normal_dir "" = false.
Proof. vm_compute. repeat split. Qed.

(** ** The key deriver *)

Section KeyDeriverFacts.
Import KeyDeriver.

Lemma Value_nested_ind (P : Value -> Prop) :
  P VNull -> (forall b, P (VBool b)) -> (forall z, P (VNum z)) ->
  (forall s, P (VStr s)) ->
  (forall l, Forall P l -> P (VArr l)) ->
  (forall l, Forall (fun p => P p.2) l -> P (VObj l)) ->
  (forall n, P (VOpaque n)) ->
  forall v, P v.
Proof.
  intros Hnull Hbool Hnum Hstr Harr Hobj Hopq.
  fix IH 1. intros [ | b | z | s | l | l | n].
  - apply Hnull.
  - apply Hbool.
  - apply Hnum.
  - apply Hstr.
  - apply Harr. revert l. fix IHl 1. intros [|v l]; constructor.
    + apply IH.
    + apply IHl.
  - apply Hobj. revert l. fix IHl 1. intros [|[k v] l]; constructor.
    + apply IH.
    + apply IHl.
  - apply Hopq.
Qed.

#[local] Instance key_le_trans : Transitive key_le.
Proof. intros p q r. unfold key_le. apply transitivity. Qed.

#[local] Instance key_le_total : Total key_le.
Proof. intros p q. unfold key_le. apply total, _. Qed.

Lemma entry_unique (l : Args) p q :
  NoDup l.*1 -> p ∈ l -> q ∈ l -> p.1 = q.1 -> p = q.
Proof.
  induction l as [|x l IH]; simpl; intros Hnd Hp Hq Hk.
  - inversion Hp.
  - apply NoDup_cons in Hnd as [Hx Hnd].
    apply elem_of_cons in Hp as [->|Hp]; apply elem_of_cons in Hq as [->|Hq];
      auto.
    + exfalso. apply Hx. rewrite Hk. apply list_elem_of_fmap. eauto.
    + exfalso. apply Hx. rewrite <- Hk. apply list_elem_of_fmap. eauto.
Qed.

Lemma sort_entries_perm (l l' : Args) :
  NoDup l.*1 -> l ≡ₚ l' -> merge_sort key_le l = merge_sort key_le l'.
Proof.
  intros Hnd Hperm.
  apply (Sorted_unique_strong key_le).
  - intros p q Hp Hq Hpq Hqp.
    rewrite merge_sort_Permutation in Hp.
    rewrite merge_sort_Permutation, <- Hperm in Hq.
    apply (entry_unique l); auto.
    unfold key_le in *. by apply (anti_symm String.le).
  - apply Sorted_merge_sort, _.
  - apply Sorted_merge_sort, _.
  - by rewrite !merge_sort_Permutation.
Qed.

Lemma canonicalize_obj l :
  canonicalize (VObj l) = VObj (merge_sort key_le (map canon_entry l)).
Proof. reflexivity. Qed.

Lemma canon_entries_keys (l : Args) : (map canon_entry l).*1 = l.*1.
Proof. induction l as [|[k v] l IH]; [done|]. cbn. f_equal. exact IH. Qed.

Lemma canonicalize_respects_equiv a :
  well_formed a = true ->
  forall b, equiv a b -> canonicalize a = canonicalize b.
Proof.
  induction a as [ | b0 | z | s | l IH | l IH | n] using Value_nested_ind;
    intros Hwf b Hab;
    inversion Hab as [ | | | | | l0 l' HF | l0 l1 l' HP HF ]; subst;
    try reflexivity.
  - simpl. f_equal. simpl in Hwf.
    induction HF as [|v w l l' Hvw HF IHF]; simpl in *; [done|].
    apply andb_true_iff in Hwf as [Hv Hl].
    apply Forall_cons in IH as [IHv IHl].
    f_equal; [by apply IHv | apply IHF; auto; by constructor].
  - rewrite !canonicalize_obj. f_equal.
    simpl in Hwf. apply andb_true_iff in Hwf as [Hnd Hl].
    apply bool_decide_eq_true in Hnd.
    assert (Hmap : map canon_entry l1 = map canon_entry l').
    { assert (HQ : Forall (fun p => well_formed p.2 = true /\
                (forall b, equiv p.2 b ->
                   canonicalize p.2 = canonicalize b)) l).
      { clear -IH Hl. induction l as [|p l IHl0]; [constructor|].
        simpl in Hl. apply andb_true_iff in Hl as [Hp Hl].
        apply Forall_cons in IH as [IHp IH]. constructor; auto. }
      rewrite HP in HQ. clear -HQ HF.
      induction HF as [|p q l1 l' [Hk Hv] HF IHF]; simpl; [done|].
      apply Forall_cons in HQ as [[_ Hp] HQ].
      f_equal; [|by apply IHF].
      unfold canon_entry. by rewrite Hk, (Hp _ Hv). }
    rewrite <- Hmap. apply sort_entries_perm.
    + by rewrite canon_entries_keys.
    + by apply Permutation_map.
Qed.

Lemma canonicalize_reflects_equiv a :
  forall b, canonicalize a = canonicalize b -> equiv a b.
Proof.
  induction a as [ | b0 | z | s | l IH | l IH | n] using Value_nested_ind;
    intros [ | b1 | z1 | s1 | l' | l' | n1 ] Hc;
    try discriminate Hc;
    try (simpl in Hc; simplify_eq; constructor; fail).
  - injection Hc as Hc. constructor.
    revert l' Hc. induction l as [|v l IHl]; intros [|w l'] Hc;
      try discriminate Hc; [constructor|].
    injection Hc as Hv Hc. apply Forall_cons in IH as [IHv IH].
    constructor; auto.
  - rewrite !canonicalize_obj in Hc. injection Hc as Hc.
    assert (Hperm : map canon_entry l' ≡ₚ map canon_entry l).
    { rewrite <- (merge_sort_Permutation key_le (map canon_entry l')).
      rewrite <- Hc. apply merge_sort_Permutation. }
    apply Permutation_map_inv in Hperm as (l1 & Hmap & HP).
    apply (equiv_obj l l1 l'); [exact HP|].
    rewrite HP in IH. clear -IH Hmap.
    revert l' Hmap. induction l1 as [|p l1 IHl]; intros [|q l'] Hmap;
      try discriminate Hmap; [constructor|].
    injection Hmap as Hk Hv Hmap. apply Forall_cons in IH as [IHp IH].
    constructor; [split; [done|by apply IHp]|by apply IHl].
Qed.

Section Encoding.
#[local] Open Scope char_scope.

Lemma uint_chars_inj u :
  forall u' r r', ends_number r -> ends_number r' ->
  uint_chars u ++ r = uint_chars u' ++ r' -> u = u' /\ r = r'.
Proof.
  induction u as [ |u IH|u IH|u IH|u IH|u IH|u IH|u IH|u IH|u IH|u IH];
    intros [ |u'|u'|u'|u'|u'|u'|u'|u'|u'|u'] r r' Hr Hr' H; simpl in H;
    try (subst; simpl in *; discriminate);
    try (injection H as H; destruct (IH _ _ _ Hr Hr' H) as [-> ->]; done).
  done.
Qed.

Lemma uint_chars_head u :
  u <> Decimal.Nil ->
  exists c t, uint_chars u = c :: t /\ is_num_char c = true.
Proof. destruct u; intros Hu; try done; simpl; eauto. Qed.

Lemma number_head z :
  exists c t, int_chars (Z.to_int z) = c :: t /\ is_num_char c = true.
Proof.
  destruct z as [|p|p]; simpl.
  - eauto.
  - apply uint_chars_head, DecimalPos.Unsigned.to_uint_nonnil.
  - eauto.
Qed.

Lemma number_inj z z' r r' :
  ends_number r -> ends_number r' ->
  int_chars (Z.to_int z) ++ r = int_chars (Z.to_int z') ++ r' ->
  z = z' /\ r = r'.
Proof.
  intros Hr Hr' H.
  assert (Hd : Z.to_int z = Z.to_int z' /\ r = r').
  { destruct (Z.to_int z) as [u|u] eqn:Hz, (Z.to_int z') as [u'|u'] eqn:Hz';
      simpl in H.
    - destruct (uint_chars_inj _ _ _ _ Hr Hr' H) as [-> ->]. done.
    - destruct u; simpl in H; try discriminate H.
      subst r. simpl in Hr. discriminate Hr.
    - destruct u'; simpl in H; try discriminate H.
      subst r'. simpl in Hr'. discriminate Hr'.
    - injection H as H.
      destruct (uint_chars_inj _ _ _ _ Hr Hr' H) as [-> ->]. done. }
  destruct Hd as [Hd ->]. split; [|done].
  rewrite <- (DecimalZ.of_to z), <- (DecimalZ.of_to z'). by rewrite Hd.
Qed.

Lemma escape_char_head c :
  exists d t, escape_char c = d :: t /\ d <> dquote.
Proof.
  unfold escape_char. repeat case_decide; eauto.
Qed.

Lemma escape_inj s :
  forall s' r r',
  escape s ++ dquote :: r = escape s' ++ dquote :: r' -> s = s' /\ r = r'.
Proof.
  induction s as [|c s IH]; intros [|c' s'] r r' H; simpl in H.
  - by injection H as ->.
  - destruct (escape_char_head c') as (d & t & Hd & Hne).
    rewrite Hd in H. simpl in H. injection H as H _. congruence.
  - destruct (escape_char_head c) as (d & t & Hd & Hne).
    rewrite Hd in H. simpl in H. injection H as H _. congruence.
  - rewrite <- !app_assoc in H.
    assert (c = c' /\ escape s ++ dquote :: r = escape s' ++ dquote :: r')
      as [-> H'].
    { unfold escape_char in H. repeat case_decide; subst; simpl in H;
        simplify_eq; done. }
    destruct (IH _ _ _ H') as [-> ->]. done.
Qed.

Lemma quote_inj s s' r r' :
  quote s ++ r = quote s' ++ r' -> s = s' /\ r = r'.
Proof.
  unfold quote. simpl. rewrite <- !app_assoc. simpl. intros H.
  injection H as H. apply escape_inj in H as [Hs ->]. split; [|done].
  rewrite <- (Strings.String.string_of_list_ascii_of_string s),
    <- (Strings.String.string_of_list_ascii_of_string s').
  by rewrite Hs.
Qed.

Lemma join_comma_inj {A} (f : A -> list ascii) (Q : A -> Prop)
    (close : ascii) :
  is_num_char close = false -> close <> "," ->
  forall l,
  Forall (fun x =>
    (exists c t, f x = c :: t /\ c <> close) /\
    (forall y r r', Q y -> ends_number r -> ends_number r' ->
       f x ++ r = f y ++ r' -> x = y /\ r = r')) l ->
  forall l' r r',
  Forall (fun y => Q y /\ exists c t, f y = c :: t /\ c <> close) l' ->
  join_comma (map f l) ++ close :: r = join_comma (map f l') ++ close :: r' ->
  l = l' /\ r = r'.
Proof.
  intros Hclose Hcomma. induction l as [|x l IH]; intros Hl [|y l'] r r' Hl' H.
  - simpl in H. by injection H as ->.
  - apply Forall_cons in Hl' as [[_ (c & t & Hy & Hne)] _].
    simpl in H. rewrite Hy in H. simpl in H. injection H as H _. congruence.
  - apply Forall_cons in Hl as [[(c & t & Hx & Hne) _] _].
    simpl in H. rewrite Hx in H. simpl in H. injection H as H _. congruence.
  - apply Forall_cons in Hl as [[_ Hx] Hl].
    apply Forall_cons in Hl' as [[Hy _] Hl'].
    simpl in H. rewrite <- !app_assoc in H.
    apply Hx in H as [-> H]; [|done| |].
    + destruct l as [|a l], l' as [|b l']; simpl in H.
      * by injection H as ->.
      * injection H as H _. congruence.
      * injection H as H _. congruence.
      * injection H as H.
        destruct (IH Hl (b :: l') r r' Hl' H) as [-> ->]. done.
    + destruct l; simpl; [exact Hclose|done].
    + destruct l'; simpl; [exact Hclose|done].
Qed.
End Encoding.

Section EncodeInjective.
#[local] Open Scope char_scope.

Lemma encode_head v :
  supported v = true ->
  exists c t, encode v = c :: t /\ head_char c = true.
Proof.
  destruct v as [ | [|] | z | s | l | l | n]; simpl; intros Hs;
    try discriminate Hs; eauto.
  destruct (number_head z) as (c & t & -> & Hc).
  exists c, t. split; [done|]. unfold head_char. rewrite Hc.
  apply orb_true_r.
Qed.

Lemma encode_head_ne v close :
  head_char close = false -> supported v = true ->
  exists c t, encode v = c :: t /\ c <> close.
Proof.
  intros Hclose Hs. destruct (encode_head v Hs) as (c & t & Hv & Hc).
  exists c, t. split; [done|]. congruence.
Qed.

Ltac number_clash H :=
  match type of H with
  | context [int_chars (Z.to_int ?z)] =>
      let Hh := fresh in let Hc := fresh in
      destruct (number_head z) as (? & ? & Hh & Hc);
      rewrite Hh in H; simpl in H; simplify_eq;
      vm_compute in Hc; discriminate Hc
  end.

Lemma encode_inj v :
  supported v = true ->
  forall v' r r', supported v' = true ->
  ends_number r -> ends_number r' ->
  encode v ++ r = encode v' ++ r' -> v = v' /\ r = r'.
Proof.
  induction v as [ | b | z | s | l IH | l IH | n] using Value_nested_ind;
    intros Hs [ | b1 | z1 | s1 | l1 | l1 | n1 ] r r' Hs' Hr Hr' H;
    try discriminate Hs; try discriminate Hs';
    repeat match goal with b : bool |- _ => destruct b end;
    try (simpl in H; discriminate H);
    try (simpl in H; simplify_eq; done);
    try (simpl in H; number_clash H).
  - apply number_inj in H as [-> ->]; done.
  - apply quote_inj in H as [-> ->]; done.
  - simpl in H, Hs, Hs'. injection H as H. rewrite <- !app_assoc in H.
    simpl in H.
    apply (join_comma_inj encode (fun y => supported y = true)) in H
      as [-> ->]; try done.
    + clear -IH Hs. induction l as [|v l IHl]; [constructor|].
      simpl in Hs. apply andb_true_iff in Hs as [Hv Hl].
      apply Forall_cons in IH as [IHv IH].
      constructor; [|by apply IHl].
      split; [by apply encode_head_ne|].
      intros y r r' Hy Hr Hr'. by apply IHv.
    + clear -Hs'. induction l1 as [|v l IHl]; [constructor|].
      simpl in Hs'. apply andb_true_iff in Hs' as [Hv Hl].
      constructor; [|by apply IHl].
      split; [done|by apply encode_head_ne].
  - simpl in H, Hs, Hs'. injection H as H. rewrite <- !app_assoc in H.
    simpl in H.
    apply (join_comma_inj (fun p => quote p.1 ++ ":" :: encode p.2)
             (fun p => supported p.2 = true)) in H
      as [-> ->]; try done.
    + clear -IH Hs. induction l as [|[k v] l IHl]; [constructor|].
      simpl in Hs. apply andb_true_iff in Hs as [Hv Hl].
      apply Forall_cons in IH as [IHv IH].
      constructor; [|by apply IHl].
      split; [unfold quote; simpl; eauto|].
      intros [k' v'] r r' Hy Hr Hr' H. cbn [fst snd] in H, Hy, IHv, Hv.
      rewrite <- !app_assoc in H.
      apply quote_inj in H as [-> H]. simpl in H. injection H as H.
      destruct (IHv Hv v' r r' Hy Hr Hr' H) as [-> ->]. done.
    + clear -Hs'. induction l1 as [|[k v] l IHl]; [constructor|].
      simpl in Hs'. apply andb_true_iff in Hs' as [Hv Hl].
      constructor; [|by apply IHl].
      split; [done|unfold quote; simpl; eauto].
Qed.
End EncodeInjective.

Lemma forallb_perm {A} (f : A -> bool) l l' :
  l ≡ₚ l' -> forallb f l = forallb f l'.
Proof.
  induction 1 as [|x l l' _ IH|x y l|l l' l'' _ IH1 _ IH2]; simpl.
  - done.
  - by rewrite IH.
  - destruct (f x), (f y); done.
  - by rewrite IH1.
Qed.

Lemma supported_canonicalize v : supported (canonicalize v) = supported v.
Proof.
  induction v as [ | b | z | s | l IH | l IH | n] using Value_nested_ind;
    try reflexivity.
  - simpl. induction l as [|v l IHl]; [done|].
    apply Forall_cons in IH as [IHv IH]. simpl. by rewrite IHv, IHl.
  - rewrite canonicalize_obj. simpl.
    rewrite (forallb_perm _ _ _ (merge_sort_Permutation key_le _)).
    induction l as [|[k v] l IHl]; [done|].
    apply Forall_cons in IH as [IHv IH]. simpl in *. by rewrite IHv, IHl.
Qed.

Lemma supported_equiv a :
  forall b, equiv a b -> supported a = supported b.
Proof.
  induction a as [ | b0 | z | s | l IH | l IH | n] using Value_nested_ind;
    intros b Hab;
    inversion Hab as [ | | | | | l0 l' HF | l0 l1 l' HP HF ]; subst;
    try reflexivity.
  - simpl. induction HF as [|v w l l' Hvw HF IHF]; [done|].
    apply Forall_cons in IH as [IHv IH]. simpl.
    rewrite (IHv _ Hvw), IHF; [done|done|by constructor].
  - simpl. rewrite (forallb_perm _ _ _ HP). rewrite HP in IH.
    clear -IH HF.
    induction HF as [|p q l1 l' [Hk Hv] HF IHF]; [done|].
    apply Forall_cons in IH as [IHp IH]. simpl.
    by rewrite (IHp _ Hv), IHF.
Qed.

Lemma equiv_refl v : equiv v v.
Proof.
  induction v as [ | b | z | s | l IH | l IH | n] using Value_nested_ind;
    try constructor.
  - induction IH; constructor; auto.
  - apply (equiv_obj l l l); [done|].
    induction IH; constructor; auto.
Qed.

(** C2 (key stability).  Two query identities with the same function
    reference whose argument mappings hold the same key/value pairs, the
    keys inserted in a different order at any depth ([equiv]), derive the
    same key.  The mappings are those of JS objects: each holds a key
    once ([well_formed]). *)
Theorem derive_stable f a b :
  well_formed (VObj a) = true -> equiv (VObj a) (VObj b) ->
  derive f a = derive f b.
Proof.
  intros Hwf Hab. unfold derive.
  rewrite (supported_equiv _ _ Hab). unfold key_text.
  by rewrite (canonicalize_respects_equiv _ Hwf _ Hab).
Qed.

Lemma text_inj (x y : list ascii) :
  Strings.String.string_of_list_ascii x
    = Strings.String.string_of_list_ascii y ->
  x = y.
Proof.
  intros H. apply (f_equal Strings.String.list_ascii_of_string) in H.
  by rewrite !Strings.String.list_ascii_of_string_of_list_ascii in H.
Qed.

Lemma derive_reflects_equiv f g a b k :
  derive f a = Some k -> derive g b = Some k ->
  f = g /\ equiv (VObj a) (VObj b).
Proof.
  unfold derive. intros Ha Hb.
  destruct (supported (VObj a)) eqn:Hsa; [|discriminate Ha].
  destruct (supported (VObj b)) eqn:Hsb; [|discriminate Hb].
  assert (Ht : key_text f a = key_text g b).
  { apply text_inj. congruence. }
  clear Ha Hb. rename Ht into Ha. unfold key_text in Ha.
  apply (f_equal tail) in Ha. cbn [tail] in Ha.
  apply quote_inj in Ha as [-> Ha].
  apply (f_equal tail) in Ha. cbn [tail] in Ha. split; [done|].
  apply canonicalize_reflects_equiv.
  apply (encode_inj _) in Ha as [Ha _]; try done;
    by rewrite supported_canonicalize.
Qed.

Lemma equiv_entries_refl (b : Args) :
  Forall2 (fun p q => p.1 = q.1 /\ equiv p.2 q.2) b b.
Proof. induction b as [|p b IH]; constructor; auto using equiv_refl. Qed.

(** Reordering the entries of a mapping gives an equivalent mapping. *)
Lemma equiv_permutation (a b : Args) : a ≡ₚ b -> equiv (VObj a) (VObj b).
Proof.
  intros Hperm. apply (equiv_obj a b b); [done|apply equiv_entries_refl].
Qed.

(** C3 (key injectivity).  Within the supported value domain, two query
    identities whose (function reference, argument mapping) pairs are not
    equivalent derive distinct keys; the number 1 and the string "1" are
    such a pair (see the witness). *)
Theorem derive_injective f g a b :
  supported (VObj a) = true -> supported (VObj b) = true ->
  ~ (f = g /\ equiv (VObj a) (VObj b)) ->
  derive f a <> derive g b.
Proof.
  intros Ha Hb Hne Heq. apply Hne.
  destruct (derive f a) as [key|] eqn:Hka.
  - symmetry in Heq. by apply (derive_reflects_equiv f g a b key).
  - unfold derive in Hka. rewrite Ha in Hka. discriminate Hka.
Qed.

Lemma derive_stable_witness :
  let a := [("channel"%string, VStr "general"); ("limit"%string, VNum 10)] in
  let b := [("limit"%string, VNum 10); ("channel"%string, VStr "general")] in
  well_formed (VObj a) = true /\ equiv (VObj a) (VObj b) /\
  derive "listMessages" a = derive "listMessages" b.
Proof.
  intros a b.
  assert (Hwf : well_formed (VObj a) = true) by (vm_compute; reflexivity).
  assert (Heq : equiv (VObj a) (VObj b)).
  { apply equiv_permutation, perm_swap. }
  split; [exact Hwf|]. split; [exact Heq|].
  exact (derive_stable "listMessages" a b Hwf Heq).
Defined.

Lemma derive_injective_witness :
  let a := [("n"%string, VNum 1)] in
  let b := [("n"%string, VStr "1")] in
  supported (VObj a) = true /\ supported (VObj b) = true /\
  ~ ("f"%string = "f"%string /\ equiv (VObj a) (VObj b)) /\
  derive "f" a <> derive "f" b.
Proof.
  intros a b.
  assert (Ha : supported (VObj a) = true) by reflexivity.
  assert (Hb : supported (VObj b) = true) by reflexivity.
  assert (Hne : ~ ("f"%string = "f"%string /\ equiv (VObj a) (VObj b))).
  { intros [_ Hab]. inversion Hab as [ | | | | | | l l1 l' HP HF ]; subst.
    apply Permutation_singleton_l in HP. subst l1.
    inversion HF as [|p q t t' [_ Hv] _]; subst. simpl in Hv. inversion Hv. }
  split; [exact Ha|]. split; [exact Hb|]. split; [exact Hne|].
  exact (derive_injective "f" "f" a b Ha Hb Hne).
Defined.


End KeyDeriverFacts.

(** ** The subscription registry *)

Section RegistryFacts.
Import Registry.
Context {Notify : Type}.
Implicit Types (st : State Notify) (L : list Handle).

Lemma start_opens h k f a n st :
  entries st !! k = None ->
  attached_to k (next_sub st) [h] (transport st ++ [TOpen (next_sub st) f a])
    (start h k f a n st).
Proof.
  intros Hk. unfold start. rewrite Hk. split; [|split]; simpl.
  - exists RUndefined. by rewrite lookup_insert_eq.
  - intros h' ->%list_elem_of_singleton. exists n.
    by rewrite lookup_insert_eq.
  - done.
Qed.

Lemma start_joins h k f a n s L log st :
  attached_to k s L log st ->
  attached_to k s (L ++ [h]) log (start h k f a n st).
Proof.
  intros ([v Hk] & Hsubs & Hlog). unfold start. rewrite Hk.
  split; [|split]; simpl.
  - exists v. by rewrite lookup_insert_eq.
  - intros h' Hh'. destruct (decide (h' = h)) as [->|Hne].
    + exists n. by rewrite lookup_insert_eq.
    + rewrite lookup_insert_ne by done. apply Hsubs.
      apply elem_of_app in Hh' as [?|?%list_elem_of_singleton]; done.
  - done.
Qed.

Lemma starts_join (ls : list (Handle * Notify)) k f a s L log st :
  attached_to k s L log st ->
  attached_to k s (L ++ ls.*1) log (starts ls k f a st).
Proof.
  revert L st. induction ls as [|[h n] ls IH]; intros L st Hst; simpl.
  - by rewrite app_nil_r.
  - rewrite (cons_middle h), app_assoc. apply IH. by apply start_joins.
Qed.

Lemma starts_open (ls : list (Handle * Notify)) k f a st :
  ls <> [] -> entries st !! k = None ->
  attached_to k (next_sub st) ls.*1
    (transport st ++ [TOpen (next_sub st) f a]) (starts ls k f a st).
Proof.
  destruct ls as [|[h n] ls]; [done|]. intros _ Hk. simpl.
  apply (starts_join ls k f a _ [h]). by apply start_opens.
Qed.

Lemma end_leaves h k s L log st :
  attached_to k s L log st -> h ∈ L -> (exists x, x ∈ L /\ x <> h) ->
  attached_to k s (filter (fun x => x ≠ h) L) log (end_ h st).
Proof.
  intros ([v Hk] & Hsubs & Hlog) Hh (x & Hx & Hne).
  destruct (Hsubs h Hh) as [n Hn]. unfold end_. rewrite Hn, Hk. simpl.
  destruct (filter (fun x => x ≠ h) L) as [|y rest] eqn:Hf.
  { assert (x ∈ filter (fun x => x ≠ h) L) as Hin
      by (by apply list_elem_of_filter).
    rewrite Hf in Hin. inversion Hin. }
  split; [|split]; simpl.
  - exists v. by rewrite lookup_insert_eq.
  - intros h' Hh'. rewrite <- Hf in Hh'.
    apply list_elem_of_filter in Hh' as [Hne' Hin].
    rewrite lookup_delete_ne by done. by apply Hsubs.
  - done.
Qed.

Lemma end_closes h k s log st :
  attached_to k s [h] log st ->
  entries (end_ h st) !! k = None /\
  subs (end_ h st) !! h = None /\
  transport (end_ h st) = log ++ [TClose s].
Proof.
  intros ([v Hk] & Hsubs & Hlog).
  destruct (Hsubs h) as [n Hn]; [by apply list_elem_of_singleton|].
  unfold end_. rewrite Hn, Hk. simpl.
  rewrite filter_cons_False, filter_nil by (intros Hne; by apply Hne).
  simpl. rewrite !lookup_delete_eq, Hlog. done.
Qed.

Lemma ends_leave es :
  forall k s L log st,
  attached_to k s L log st -> NoDup L -> NoDup es ->
  (forall h, h ∈ es -> h ∈ L) -> (exists x, x ∈ L /\ x ∉ es) ->
  exists L', attached_to k s L' log (ends es st) /\ NoDup L' /\
    forall x, x ∈ L' <-> x ∈ L /\ x ∉ es.
Proof.
  induction es as [|h es IH];
    intros k s L log st Hst HL Hes Hsub (x & Hx & Hxe).
  - exists L. simpl. split; [done|]. split; [done|].
    intros y. split; [|tauto]. intros Hy. split; [done|].
    by intros ?%elem_of_nil.
  - apply NoDup_cons in Hes as [Hh Hes]. simpl.
    apply not_elem_of_cons in Hxe as [Hxh Hxe].
    destruct (IH k s (filter (fun x => x ≠ h) L) log (end_ h st))
      as (L' & HL' & Hnd & Hiff).
    + apply end_leaves; [done| |by eauto]. apply Hsub. by left.
    + by apply NoDup_filter.
    + done.
    + intros h' Hh'. apply list_elem_of_filter. split.
      * intros ->. done.
      * apply Hsub. by right.
    + exists x. split; [|done]. by apply list_elem_of_filter.
    + exists L'. split; [done|]. split; [done|].
      intros y. rewrite Hiff, list_elem_of_filter, not_elem_of_cons. tauto.
Qed.

Lemma singleton_of_elems (L : list Handle) h :
  NoDup L -> (forall x, x ∈ L <-> x = h) -> L = [h].
Proof.
  intros Hnd Hiff. destruct L as [|a [|b L]].
  - exfalso. apply (not_elem_of_nil h). by apply Hiff.
  - f_equal. apply Hiff. by left.
  - exfalso. apply NoDup_cons in Hnd as [Ha _].
    assert (a = h) as -> by (apply Hiff; by left).
    assert (b = h) as -> by (apply Hiff; right; by left).
    apply Ha. by left.
Qed.

Lemma calls_since_app st0 st calls :
  transport st = transport st0 ++ calls -> calls_since st0 st = calls.
Proof. intros H. unfold calls_since. rewrite H. by rewrite drop_app_length. Qed.

(** C1 (reference-count correctness).  From a registry without an entry
    for key [k], let [N] listeners with distinct handles [ls] start on
    [k], and let [N-1] of the handles, [es], end in any order: the entry
    of [k] is still there, with the one subscription opened for it, and
    the transport has seen that [open] and no [close].  After the last
    handle [hl] ends, the entry is gone and the transport has seen
    exactly one [close], of that subscription. *)
Theorem refcount_correct k f a (ls : list (Handle * Notify)) es hl st0 :
  entries st0 !! k = None ->
  NoDup ls.*1 ->
  es ++ [hl] ≡ₚ ls.*1 ->
  let s := next_sub st0 in
  let st1 := starts ls k f a st0 in
  let st2 := ends es st1 in
  let st3 := end_ hl st2 in
  (exists v, entries st2 !! k =
     Some {| ce_key := k; ce_sub := s; ce_value := v;
             ce_listeners := [hl] |}) /\
  calls_since st0 st2 = [TOpen s f a] /\
  close_count (calls_since st0 st2) = 0%nat /\
  entries st3 !! k = None /\
  calls_since st0 st3 = [TOpen s f a; TClose s] /\
  close_count (calls_since st0 st3) = 1%nat.
Proof.
  intros Hk Hnd Hperm s st1 st2 st3.
  assert (Hls : ls <> []).
  { intros ->. simpl in Hperm. apply Permutation_nil_r in Hperm.
    by destruct es. }
  pose proof (starts_open ls k f a st0 Hls Hk) as H1. fold s st1 in H1.
  assert (Hnd' : NoDup (es ++ [hl])) by (by rewrite Hperm).
  apply NoDup_app in Hnd' as (Hes & Hdisj & _).
  destruct (ends_leave es k s ls.*1 _ st1 H1 Hnd Hes) as (L' & H2 & HL' & Hiff).
  { intros h Hh. rewrite <- Hperm. apply elem_of_app. by left. }
  { exists hl. split.
    - rewrite <- Hperm. apply elem_of_app. right. by left.
    - intros Hin. apply (Hdisj _ Hin). by left. }
  fold st2 in H2.
  assert (L' = [hl]) as ->.
  { apply singleton_of_elems; [done|]. intros x. rewrite Hiff, <- Hperm.
    rewrite elem_of_app, list_elem_of_singleton. split; [tauto|].
    intros ->. split; [by right|]. intros Hin. apply (Hdisj _ Hin). by left. }
  destruct (end_closes hl k s _ st2 H2) as (H3 & _ & Hlog3).
  fold st3 in H3, Hlog3.
  destruct H2 as (He & _ & Hlog2).
  rewrite (calls_since_app st0 st2 [TOpen s f a]) by done.
  rewrite (calls_since_app st0 st3 [TOpen s f a; TClose s])
    by (by rewrite Hlog3, <- app_assoc).
  done.
Qed.
End RegistryFacts.

Lemma refcount_correct_witness :
  let ls :=
    [("h1"%string, 0%nat); ("h2"%string, 1%nat); ("h3"%string, 2%nat)] in
  let es := ["h2"%string; "h1"%string] in
  let st0 : Registry.State nat := Registry.empty in
  let st3 :=
    Registry.end_ "h3" (Registry.ends es (Registry.starts ls "k" "f" [] st0)) in
  Registry.entries st0 !! "k"%string = None /\
  NoDup ls.*1 /\
  es ++ ["h3"%string] ≡ₚ ls.*1 /\
  Registry.entries st3 !! "k"%string = None /\
  Registry.calls_since st0 st3 = [Registry.TOpen 0 "f" []; Registry.TClose 0].
Proof.
  intros ls es st0 st3.
  assert (H0 : Registry.entries st0 !! "k"%string = None) by reflexivity.
  assert (Hnd : NoDup ls.*1)
    by (apply (bool_decide_unpack _); vm_compute; exact I).
  assert (Hperm : es ++ ["h3"%string] ≡ₚ ls.*1)
    by (apply (bool_decide_unpack _); vm_compute; exact I).
  split; [exact H0|]. split; [exact Hnd|]. split; [exact Hperm|].
  destruct (refcount_correct "k" "f" [] ls es "h3" st0 H0 Hnd Hperm)
    as (_ & _ & _ & Hgone & Hcalls & _).
  split; [exact Hgone|exact Hcalls].
Defined.

(** ** The hooks *)

Lemma imap_compose {A B C} (f : nat -> B -> C) (g : nat -> A -> B) l :
  imap f (imap g l) = imap (fun i x => f i (g i x)) l.
Proof.
  revert f g. induction l as [|x l IH]; intros f g; simpl; [done|].
  f_equal. by rewrite IH.
Qed.

Section HooksFacts.
Import Hooks.
Context {R : Type} `{!CacheRegistry R}.
Variable createQueryKey : FunctionReference -> Args -> option QueryKey.
Variable randomUUID : nat -> Handle.

Abbreviation body := (loop_body createQueryKey).
Abbreviation key_of e := (createQueryKey (query e.2) (args e.2)).

Lemma loop_body_initial registry slots acc e :
  new_slots (body registry slots acc e) =
    new_slots acc ++
      [useState slots (length (new_slots acc))
         (initial_of createQueryKey registry e)].
Proof.
  unfold loop_body, initial_of. simpl.
  destruct registry, (key_of e); reflexivity.
Qed.

Lemma loop_slots_length registry slots queries : forall acc,
  length (new_slots (foldl (body registry slots) acc queries)) =
    (length (new_slots acc) + length queries)%nat.
Proof.
  induction queries as [|e queries IH]; intros acc; simpl; [lia|].
  rewrite IH, loop_body_initial, length_app. simpl. lia.
Qed.

Lemma loop_slots registry slots queries : forall acc,
  new_slots (foldl (body registry slots) acc queries) =
    new_slots acc ++
      imap (fun i e => useState slots (length (new_slots acc) + i)
                         (initial_of createQueryKey registry e)) queries.
Proof.
  induction queries as [|e queries IH]; intros acc; simpl.
  - by rewrite app_nil_r.
  - rewrite IH, loop_body_initial, <- app_assoc. simpl.
    rewrite Nat.add_0_r. do 2 f_equal. apply imap_ext.
    intros i x _. simpl. rewrite length_app. simpl. f_equal. lia.
Qed.

Lemma loop_listens registry slots queries : forall acc,
  listens (foldl (body registry slots) acc queries) =
    listens acc ++
      imap (fun i e => listen_of createQueryKey (length (new_slots acc) + i) e)
        queries.
Proof.
  induction queries as [|e queries IH]; intros acc; simpl.
  - by rewrite app_nil_r.
  - rewrite IH, loop_body_initial. simpl. rewrite <- app_assoc. simpl.
    rewrite Nat.add_0_r. do 2 f_equal. apply imap_ext.
    intros i x _. simpl. rewrite length_app. simpl. f_equal. lia.
Qed.

Lemma loop_calls_no_registry slots queries : forall acc,
  calls (foldl (body None slots) acc queries) =
    calls acc ++
      map (fun e => CreateQueryKey (query e.2) (args e.2)) queries.
Proof.
  induction queries as [|e queries IH]; intros acc; simpl.
  - by rewrite app_nil_r.
  - rewrite IH. simpl. by rewrite <- app_assoc.
Qed.

Lemma loop_results_other registry slots name queries : forall acc,
  name ∉ queries.*1 ->
  results (foldl (body registry slots) acc queries) !! name =
    results acc !! name.
Proof.
  induction queries as [|e queries IH]; intros acc Hname; simpl; [done|].
  simpl in Hname. apply not_elem_of_cons in Hname as [Hne Hname].
  rewrite IH by done. simpl. by rewrite lookup_insert_ne.
Qed.

Lemma loop_results registry slots queries : forall acc i e,
  NoDup queries.*1 -> queries !! i = Some e ->
  results (foldl (body registry slots) acc queries) !! e.1 =
    Some (useState slots (length (new_slots acc) + i)
            (initial_of createQueryKey registry e)).
Proof.
  induction queries as [|e0 queries IH]; intros acc i e Hnd Hi; [done|].
  simpl in Hnd. apply NoDup_cons in Hnd as [Hnew Hnd].
  destruct i as [|i]; simpl in Hi.
  - injection Hi as ->. simpl. rewrite loop_results_other by done.
    simpl. rewrite lookup_insert_eq, Nat.add_0_r.
    unfold initial_of. by destruct registry, (key_of e).
  - simpl. rewrite (IH _ i e Hnd Hi), loop_body_initial, length_app.
    simpl. do 2 f_equal. lia.
Qed.

Lemma effect_loop_defined todo : forall rng ids made,
  Forall (fun l => is_Some (queryKey l)) todo ->
  effect_loop randomUUID todo rng ids made =
    {| e_calls := made ++
         imap (fun i l => Start (randomUUID (rng + i))
                            (default ""%string (queryKey l))
                            (l_query l) (l_args l) (setV l)) todo;
       e_cleanup := Some (ids ++ imap (fun i _ => randomUUID (rng + i)) todo);
       e_rng := (rng + length todo)%nat |}.
Proof.
  induction todo as [|l todo IH]; intros rng ids made Hall; simpl.
  - by rewrite !app_nil_r, Nat.add_0_r.
  - apply Forall_cons in Hall as [[k Hk] Hall]. rewrite Hk.
    rewrite IH by done. rewrite <- !app_assoc. simpl.
    rewrite Nat.add_0_r. f_equal.
    + do 2 f_equal. apply imap_ext. intros i x _. simpl.
      by rewrite Nat.add_succ_r.
    + do 3 f_equal. apply imap_ext. intros i x _. simpl.
      by rewrite Nat.add_succ_r.
    + lia.
Qed.

Lemma effect_loop_undefined pre l post : forall rng ids made,
  Forall (fun l => is_Some (queryKey l)) pre ->
  queryKey l = None ->
  effect_loop randomUUID (pre ++ l :: post) rng ids made =
    {| e_calls := made ++
         imap (fun i l => Start (randomUUID (rng + i))
                            (default ""%string (queryKey l))
                            (l_query l) (l_args l) (setV l)) pre;
       e_cleanup := None;
       e_rng := (rng + length pre)%nat |}.
Proof.
  induction pre as [|p pre IH]; intros rng ids made Hall Hl; simpl.
  - by rewrite Hl, app_nil_r, Nat.add_0_r.
  - apply Forall_cons in Hall as [[k Hk] Hall]. rewrite Hk.
    rewrite IH by done. rewrite <- !app_assoc. simpl.
    rewrite Nat.add_0_r. f_equal.
    + do 2 f_equal. apply imap_ext. intros i x _. simpl.
      by rewrite Nat.add_succ_r.
    + lia.
Qed.

(** C9.  Outside a [ConvexQueryCacheProvider] (the registry is null)
    [useQueries] throws the provider error: it has derived the key of
    each query and initialized each state slot with [undefined], it has
    made no probe and no start, and it has registered no effect. *)
Theorem useQueries_outside_provider queries slots :
  let rd := useQueries createQueryKey (None : option R) queries slots in
  r_outcome rd = Threw provider_missing /\
  r_effect rd = None /\
  r_calls rd = map (fun e => CreateQueryKey (query e.2) (args e.2)) queries /\
  (forall k, Probe k ∉ r_calls rd) /\
  (forall id k q a s, Start id k q a s ∉ r_calls rd) /\
  r_slots rd = imap (fun i _ => useState slots i RUndefined) queries.
Proof.
  unfold useQueries. cbn [r_outcome r_effect r_calls r_slots].
  rewrite loop_calls_no_registry, loop_slots. simpl.
  repeat split.
  - intros k (e & He & _)%list_elem_of_fmap. discriminate He.
  - intros id k q a s (e & He & _)%list_elem_of_fmap. discriminate He.
Qed.

(** C8.  The effect that a render of [useQueries] registers.  When every
    requested query has a defined key, the effect calls [start] once per
    query, in order, each with a handle freshly drawn from
    [crypto.randomUUID], and returns a cleanup that calls [end] once for
    each of these handles.  When the query [e] is the first with an
    undefined key, the effect has started the queries before [e] only,
    and it returns no cleanup: the handles it started are never ended. *)
Theorem useQueries_effect_starts (reg : R) queries slots rng :
  exists ls, r_effect (useQueries createQueryKey (Some reg) queries slots)
             = Some ls /\
  let run := effect randomUUID ls rng in
  ((forall e, e ∈ queries -> is_Some (key_of e)) ->
     length (e_calls run) = length queries /\
     (forall i e, queries !! i = Some e ->
        exists k, key_of e = Some k /\
          e_calls run !! i =
            Some (Start (randomUUID (rng + i)) k (query e.2) (args e.2) i)) /\
     exists ids, e_cleanup run = Some ids /\
       ids = imap (fun i _ => randomUUID (rng + i)) queries /\
       cleanup ids = imap (fun i _ => End (randomUUID (rng + i))) queries) /\
  (forall pre e post,
     queries = pre ++ e :: post ->
     (forall p, p ∈ pre -> is_Some (key_of p)) ->
     key_of e = None ->
     length (e_calls run) = length pre /\
     (forall i p, pre !! i = Some p ->
        exists k, key_of p = Some k /\
          e_calls run !! i =
            Some (Start (randomUUID (rng + i)) k (query p.2) (args p.2) i)) /\
     e_cleanup run = None).
Proof.
  eexists. split; [reflexivity|]. rewrite loop_listens. simpl.
  split.
  - intros Hall. unfold effect. rewrite effect_loop_defined.
    2:{ apply Forall_forall. intros l (i & e & -> & Hi)%elem_of_lookup_imap.
        simpl. apply Hall. by eapply list_elem_of_lookup_2. }
    simpl. rewrite !length_imap. split; [done|]. split.
    + intros i e Hi. destruct (Hall e) as [k Hk];
        [by eapply list_elem_of_lookup_2|].
      exists k. split; [done|].
      rewrite !list_lookup_imap, Hi. simpl. by rewrite Hk.
    + eexists. split; [reflexivity|]. rewrite imap_compose. split; [done|].
      unfold cleanup. apply (fmap_imap _ End).
  - intros pre e post -> Hall He. unfold effect.
    rewrite imap_app. simpl.
    rewrite effect_loop_undefined.
    2:{ apply Forall_forall. intros l (i & p & -> & Hi)%elem_of_lookup_imap.
        simpl. apply Hall. by eapply list_elem_of_lookup_2. }
    2:{ done. }
    simpl. rewrite !length_imap. split; [done|]. split; [|done].
    intros i p Hi. destruct (Hall p) as [k Hk];
      [by eapply list_elem_of_lookup_2|].
    exists k. split; [done|].
    rewrite !list_lookup_imap, Hi. simpl. by rewrite Hk.
Qed.


(** C5, as amended.  [useQuery] with the "skip" sentinel, in a component
    that holds no query state from a render with arguments (its first
    render, or a render after skip renders only): it derives no key and
    makes no probe; under a provider it returns [undefined], and its
    effect starts nothing; outside a provider it throws the provider
    error. *)
Theorem useQuery_skip (registry : option R) q rng :
  let rd := useQuery createQueryKey registry q (Some Skip) [] in
  r_calls rd = [] /\ r_slots rd = [] /\
  match registry with
  | Some _ =>
      r_outcome rd = Returned RUndefined /\ r_effect rd = Some [] /\
      e_calls (effect randomUUID [] rng) = [] /\
      e_cleanup (effect randomUUID [] rng) = Some []
  | None => r_outcome rd = Threw provider_missing /\ r_effect rd = None
  end.
Proof. destruct registry; done. Qed.
End HooksFacts.

(** C5, as stated, fails outside a provider: the hook does not return
    [undefined], it throws. *)
Lemma useQuery_skip_outside_provider :
  Hooks.r_outcome
    (Hooks.useQuery (R := Registry.State nat) KeyDeriver.derive None
       "listMessages" (Some Hooks.Skip) [])
  <> Hooks.Returned RUndefined.
Proof. discriminate. Qed.

Lemma useQueries_effect_starts_witness :
  let uuid := fun n : nat => pretty n in
  let rq := {| Hooks.query := "listMessages"; Hooks.args := [] |} in
  let bad := {| Hooks.query := "listMessages";
                Hooks.args := [("h"%string, VOpaque 0)] |} in
  let good := [("a"%string, rq); ("b"%string, rq)] in
  let mixed := [("a"%string, rq); ("b"%string, bad); ("c"%string, rq)] in
  (forall e, e ∈ good ->
     is_Some (KeyDeriver.derive (Hooks.query e.2) (Hooks.args e.2))) /\
  KeyDeriver.derive (Hooks.query bad) (Hooks.args bad) = None /\
  (exists ls,
     Hooks.r_effect (Hooks.useQueries KeyDeriver.derive
                       (Some (Registry.empty : Registry.State nat)) good [])
       = Some ls /\
     length (Hooks.e_calls (Hooks.effect uuid ls 0)) = 2%nat /\
     Hooks.cleanup (default [] (Hooks.e_cleanup (Hooks.effect uuid ls 0)))
       = [Hooks.End "0"; Hooks.End "1"]) /\
  (exists ls,
     Hooks.r_effect (Hooks.useQueries KeyDeriver.derive
                       (Some (Registry.empty : Registry.State nat)) mixed [])
       = Some ls /\
     length (Hooks.e_calls (Hooks.effect uuid ls 0)) = 1%nat /\
     Hooks.e_cleanup (Hooks.effect uuid ls 0) = None).
Proof.
  intros uuid rq bad good mixed.
  assert (Hgood : forall e, e ∈ good ->
     is_Some (KeyDeriver.derive (Hooks.query e.2) (Hooks.args e.2))).
  { intros e He. unfold good in He.
    repeat (apply elem_of_cons in He as [->|He]); [eexists; reflexivity..|].
    by apply elem_of_nil in He. }
  assert (Hbad : KeyDeriver.derive (Hooks.query bad) (Hooks.args bad) = None)
    by reflexivity.
  split; [exact Hgood|]. split; [exact Hbad|]. split.
  - destruct (useQueries_effect_starts KeyDeriver.derive uuid
                (Registry.empty : Registry.State nat) good [] 0%nat)
      as (ls & Hls & Hall & _).
    exists ls. split; [exact Hls|].
    destruct (Hall Hgood) as (Hlen & _ & ids & Hids & -> & Hclean).
    split; [exact Hlen|]. rewrite Hids. exact Hclean.
  - destruct (useQueries_effect_starts KeyDeriver.derive uuid
                (Registry.empty : Registry.State nat) mixed [] 0%nat)
      as (ls & Hls & _ & Hsome).
    exists ls. split; [exact Hls|].
    destruct (Hsome [("a"%string, rq)] ("b"%string, bad) [("c"%string, rq)])
      as (Hlen & _ & Hnone).
    + reflexivity.
    + intros p ->%list_elem_of_singleton. eexists; reflexivity.
    + exact Hbad.
    + split; [exact Hlen|exact Hnone].
Defined.


(** ** The hooks on the registry of the specification *)

Section HooksCalls.
Import Hooks.
Variable createQueryKey : FunctionReference -> Args -> option QueryKey.

Lemma loop_calls {R} `{!CacheRegistry R} (registry : option R) slots queries :
  forall acc,
  calls (foldl (loop_body createQueryKey registry slots) acc queries) =
    calls acc ++
      (queries ≫= fun e =>
         CreateQueryKey (query e.2) (args e.2)
           :: probes_of createQueryKey registry e).
Proof.
  induction queries as [|e queries IH]; intros acc; simpl.
  - by rewrite app_nil_r.
  - rewrite IH. simpl. rewrite <- app_assoc. simpl.
    unfold probes_of.
    by destruct registry, (createQueryKey (query e.2) (args e.2)).
Qed.
End HooksCalls.

Section RegistryLate.
Import Registry.
Context {Notify : Type}.
Implicit Types (st : State Notify).




End RegistryLate.

Section LateAttachTheorem.
Import Hooks.
Variable createQueryKey : FunctionReference -> Args -> option QueryKey.

End LateAttachTheorem.

(** The scenario of two components on one query: [A] attaches and the
    transport opens once; a value is pushed; [B] attaches and finds it;
    [A] detaches and the subscription stays; [B] detaches and it is
    closed.  The transport has seen one [open] and one [close]. *)
Example two_components :
  let q := "listMessages"%string in
  let a := [("channel"%string, VStr "general")] in
  let k := Strings.String.string_of_list_ascii (KeyDeriver.key_text q a) in
  let r := RValue (VArr [VStr "hello"]) in
  let st1 := Hooks.run_calls [Hooks.Start "A" k q a 0%nat] Registry.empty in
  let st2 := (Registry.push k r st1).1 in
  let st3 := Hooks.run_calls [Hooks.Start "B" k q a 0%nat] st2 in
  let st4 := Hooks.run_calls [Hooks.End "A"] st3 in
  let st5 := Hooks.run_calls [Hooks.End "B"] st4 in
  (Registry.push k r st1).2 = [(0%nat, r)] /\
  Registry.probe k st3 = r /\
  Registry.transport st4 = [Registry.TOpen 0 q a] /\
  Registry.transport st5 = [Registry.TOpen 0 q a; Registry.TClose 0] /\
  Registry.entries st5 = ∅.
Proof. vm_compute. repeat split. Qed.



(** ** The function-spec command *)

Section CliFacts.
Import Cli.

Lemma given_Some path : path <> ""%string -> given (Some path) = true.
Proof. intros Hp. unfold given. by apply bool_decide_eq_true. Qed.

(** C10.  With a file path given: [getFunctionSpec] ends the process
    with exit status 1 when the prod flag is given too, and when nothing
    exists at the path; given alone, at a path that holds a file, it
    returns the content of that file and spawns no command. *)
Theorem getFunctionSpec_with_file_path env w path :
  path <> ""%string ->
  getFunctionSpec env (Some true) (Some path) w
    = (log ProdWithFilePath w, Exit 1) /\
  (forall prod, fs w !! path = None ->
     (getFunctionSpec env prod (Some path) w).2 = Exit 1 /\
     spawned (getFunctionSpec env prod (Some path) w).1 = spawned w) /\
  (forall prod content,
     truthy prod = false -> fs w !! path = Some (File content) ->
     getFunctionSpec env prod (Some path) w = (w, Return content)).
Proof.
  intros Hp. unfold getFunctionSpec. rewrite (given_Some _ Hp). simpl.
  split; [done|]. split.
  - intros prod Hnone. destruct (truthy prod); [done|].
    unfold existsSync. rewrite Hnone.
    rewrite bool_decide_eq_false_2 by (by intros [? ?]). done.
  - intros prod content -> Hfile. unfold existsSync, readFileSync.
    rewrite Hfile. rewrite bool_decide_eq_true_2 by eauto. done.
Qed.

Lemma try_block_failed env prod w :
  fs w !! tempFile env <> Some Directory ->
  status (spawnSync env "npx" (command prod)) <> Some 0 ->
  exists e, try_block env prod w =
    ({| fs := <[tempFile env :=
                 File (stdout (spawnSync env "npx" (command prod)))]>
                (fs w);
        console := console w;
        spawned := spawned w ++ ["npx"%string :: command prod] |}, inl e).
Proof.
  intros Hdir Hstatus. unfold try_block, openSync.
  destruct (fs w !! tempFile env) as [[c|]|] eqn:Hf; try done;
    simpl; rewrite bool_decide_eq_false_2 by done;
    rewrite insert_insert_eq; eauto.
Qed.

Lemma temp_file_kept_on_failure env prod w :
  fs w !! tempFile env <> Some Directory ->
  status (spawnSync env "npx" (command prod)) <> Some 0 ->
  let run := getFunctionSpec env prod None w in
  run.2 = Exit 1 /\
  fs run.1 !! tempFile env =
    Some (File (stdout (spawnSync env "npx" (command prod)))).
Proof.
  intros Hdir Hstatus. unfold getFunctionSpec. simpl.
  destruct (try_block_failed env prod w Hdir Hstatus) as [e ->]. simpl.
  by rewrite lookup_insert_eq.
Qed.

Lemma temp_file_removed_on_success env prod w :
  fs w !! tempFile env <> Some Directory ->
  status (spawnSync env "npx" (command prod)) = Some 0 ->
  let run := getFunctionSpec env prod None w in
  run.2 = Return (stdout (spawnSync env "npx" (command prod))) /\
  fs run.1 !! tempFile env = None.
Proof.
  intros Hdir Hstatus. unfold getFunctionSpec, try_block, openSync. simpl.
  destruct (fs w !! tempFile env) as [[c|]|] eqn:Hf; try done;
    simpl; rewrite bool_decide_eq_true_2 by done;
    unfold readFileSync; simpl; rewrite lookup_insert_eq;
    unfold finally_block, unlinkSync; simpl; rewrite lookup_insert_eq;
    simpl; by rewrite lookup_delete_eq.
Qed.

(** C7, the failing input.  Outside a Convex project, with no file path,
    the introspection command exits with status 1: [getFunctionSpec]
    reports the failure and ends the process with status 1 from its
    [catch] block, and the temporary file it created is still there. *)
Theorem getFunctionSpec_leaves_temp_file :
  let run := getFunctionSpec failing_env None None fresh_world in
  tempFile failing_env = "/tmp/function-spec-1700000000000.json"%string /\
  run.2 = Exit 1 /\
  fs run.1 !! tempFile failing_env = Some (File "") /\
  console run.1 = [RetrievalFailed].
Proof.
  split; [by vm_compute|].
  destruct (temp_file_kept_on_failure failing_env None fresh_world)
    as [Hexit Hkept]; [done|done|].
  split; [exact Hexit|]. split; [exact Hkept|]. reflexivity.
Qed.
End CliFacts.

Lemma getFunctionSpec_with_file_path_witness :
  let env := Cli.failing_env in
  let w := {| Cli.fs := {[ "spec.json"%string := Cli.File "{}" ]};
              Cli.console := []; Cli.spawned := [] |} in
  "spec.json"%string <> ""%string /\
  Cli.truthy None = false /\
  Cli.fs w !! "spec.json"%string = Some (Cli.File "{}") /\
  Cli.getFunctionSpec env None (Some "spec.json"%string) w
    = (w, Cli.Return "{}") /\
  Cli.fs w !! "other.json"%string = None /\
  "other.json"%string <> ""%string /\
  (Cli.getFunctionSpec env None (Some "other.json"%string) w).2 = Cli.Exit 1.
Proof.
  intros env w.
  assert (Hp : "spec.json"%string <> ""%string) by discriminate.
  assert (Hp' : "other.json"%string <> ""%string) by discriminate.
  assert (Ht : Cli.truthy None = false) by reflexivity.
  assert (Hf : Cli.fs w !! "spec.json"%string = Some (Cli.File "{}"))
    by reflexivity.
  assert (Hn : Cli.fs w !! "other.json"%string = None) by reflexivity.
  split; [exact Hp|]. split; [exact Ht|]. split; [exact Hf|].
  destruct (getFunctionSpec_with_file_path env w "spec.json" Hp)
    as (_ & _ & Hret).
  split; [exact (Hret None "{}"%string Ht Hf)|].
  split; [exact Hn|]. split; [exact Hp'|].
  destruct (getFunctionSpec_with_file_path env w "other.json" Hp')
    as (_ & Hex & _).
  exact (proj1 (Hex None Hn)).
Defined.

(** * Further properties of the hooks and of the command *)

Section HooksMore.
Import Hooks.
Context {R : Type} `{!CacheRegistry R}.
Variable createQueryKey : FunctionReference -> Args -> option QueryKey.
Variable randomUUID : nat -> Handle.

Abbreviation key_of e := (createQueryKey (query e.2) (args e.2)).
Abbreviation body := (loop_body createQueryKey).

Lemma loop_results_dom registry slots queries : forall acc,
  dom (results (foldl (body registry slots) acc queries)) =
    dom (results acc) ∪ list_to_set queries.*1.
Proof.
  induction queries as [|e queries IH]; intros acc; simpl.
  - by rewrite union_empty_r_L.
  - rewrite IH. simpl. rewrite dom_insert_L.
    by rewrite (comm_L (∪) {[e.1]}), <- (assoc_L (∪)).
Qed.

(** X1.  Under a provider, in a render within React's rule of hooks
    ([same_hooks]) and for a request without the key [__proto__],
    [useQueries] returns, and the object it returns has exactly the keys
    of the request. *)
Theorem useQueries_same_keys (reg : R) queries slots :
  same_hooks slots queries -> proto_key ∉ queries.*1 ->
  exists results,
    r_outcome (useQueries createQueryKey (Some reg) queries slots)
      = Returned results /\
    dom results = list_to_set queries.*1.
Proof.
  intros _ _.
  eexists. split; [reflexivity|]. rewrite loop_results_dom. simpl.
  by rewrite dom_empty_L, union_empty_l_L.
Qed.

(** X2.  On a re-render with one state slot per query, the result shown
    for a query (its key not [__proto__]) is the state stored in its
    slot: the value probed in that render is not used. *)
Theorem useQueries_rerender_keeps_state (reg : R) queries slots i e v :
  length slots = length queries ->
  NoDup queries.*1 -> queries !! i = Some e -> e.1 <> proto_key ->
  slots !! i = Some v ->
  exists results,
    r_outcome (useQueries createQueryKey (Some reg) queries slots)
      = Returned results /\
    results !! e.1 = Some v.
Proof.
  intros _ Hnd Hi _ Hv. eexists. split; [reflexivity|].
  rewrite (loop_results createQueryKey _ _ _ _ i e Hnd Hi). simpl.
  unfold useState. by rewrite Hv.
Qed.

(** X3.  On the first render the result shown for a query is what the
    registry's [probe] answers for its key, and [undefined] when the query
    has no key. *)
Theorem useQueries_mount_results (reg : R) queries i e :
  NoDup queries.*1 -> queries !! i = Some e ->
  exists results,
    r_outcome (useQueries createQueryKey (Some reg) queries [])
      = Returned results /\
    results !! e.1 =
      Some match key_of e with
           | Some k => probe reg k
           | None => RUndefined
           end.
Proof.
  intros Hnd Hi. eexists. split; [reflexivity|].
  rewrite (loop_results createQueryKey _ _ _ _ i e Hnd Hi). simpl.
  unfold useState, initial_of. by rewrite lookup_nil.
Qed.

(** X4.  Every render under a provider within React's rule of hooks
    ([same_hooks]), the first and the later ones, derives the key of each
    query and probes each defined key once, in the order of the request;
    a query without key is not probed. *)
Theorem useQueries_probes_every_render (reg : R) queries slots :
  same_hooks slots queries ->
  r_calls (useQueries createQueryKey (Some reg) queries slots) =
    queries ≫= fun e =>
      CreateQueryKey (query e.2) (args e.2)
        :: match key_of e with
           | Some k => [Probe k]
           | None => []
           end.
Proof.
  intros _. unfold useQueries. cbn [r_calls]. rewrite loop_calls. simpl.
  reflexivity.
Qed.

Lemma render_slots (registry : option R) queries slots :
  r_slots (useQueries createQueryKey registry queries slots) =
    imap (fun i e => useState slots i (initial_of createQueryKey registry e))
      queries.
Proof.
  unfold useQueries.
  destruct registry; cbn [r_slots]; by rewrite loop_slots.
Qed.

Lemma render_slots_lookup (registry : option R) queries slots i e :
  queries !! i = Some e ->
  r_slots (useQueries createQueryKey registry queries slots) !! i =
    Some (useState slots i (initial_of createQueryKey registry e)).
Proof. intros Hi. rewrite render_slots, list_lookup_imap, Hi. done. Qed.

Lemma render_slots_length (registry : option R) queries slots :
  length (r_slots (useQueries createQueryKey registry queries slots))
    = length queries.
Proof. by rewrite render_slots, length_imap. Qed.

Lemma render_results (reg : R) queries slots i e :
  NoDup queries.*1 -> queries !! i = Some e ->
  exists results,
    r_outcome (useQueries createQueryKey (Some reg) queries slots)
      = Returned results /\
    results !! e.1 =
      Some (useState slots i (initial_of createQueryKey (Some reg) e)).
Proof.
  intros Hnd Hi. eexists. split; [reflexivity|].
  by rewrite (loop_results createQueryKey _ _ _ _ i e Hnd Hi).
Qed.

(** X5.  A result delivered through the setter of the [i]-th query shows
    on the next render as the result of that query, and the results of
    the other queries stay what they were at mount, whatever the registry
    holds by then. *)
Theorem set_state_isolated (reg reg' : R) queries i e r :
  NoDup queries.*1 -> queries !! i = Some e ->
  let mounted := useQueries createQueryKey (Some reg) queries [] in
  let rd := useQueries createQueryKey (Some reg') queries
              (set_state i r (r_slots mounted)) in
  exists before after,
    r_outcome mounted = Returned before /\
    r_outcome rd = Returned after /\
    after !! e.1 = Some r /\
    forall j e', j <> i -> queries !! j = Some e' ->
      after !! e'.1 = before !! e'.1.
Proof.
  intros Hnd Hi mounted rd.
  assert (Hslots : forall j e', queries !! j = Some e' ->
            r_slots mounted !! j =
              Some (useState [] j (initial_of createQueryKey (Some reg) e')))
    by (intros j e' Hj; by apply render_slots_lookup).
  assert (Hlen : (i < length (r_slots mounted))%nat).
  { unfold mounted. rewrite render_slots_length. by eapply lookup_lt_Some. }
  unfold rd. set (ms := r_slots mounted) in *. clearbody ms.
  do 2 eexists. split; [reflexivity|]. split; [reflexivity|]. split.
  - rewrite (loop_results createQueryKey _ _ _ _ i e Hnd Hi). simpl.
    unfold useState, set_state. by rewrite list_lookup_insert_eq.
  - intros j e' Hne Hj.
    rewrite !(loop_results createQueryKey _ _ _ _ j e' Hnd Hj). simpl.
    unfold useState, set_state.
    rewrite list_lookup_insert_ne, (Hslots j e' Hj) by done. done.
Qed.

(** X6.  Without a call of a setter a re-render changes nothing: state
    slots and returned results are those of the previous render, also
    when the registry's cached values have changed in between. *)
Theorem rerender_stable (reg reg' : R) queries slots :
  NoDup queries.*1 ->
  let rd1 := useQueries createQueryKey (Some reg) queries slots in
  let rd2 := useQueries createQueryKey (Some reg') queries (r_slots rd1) in
  r_slots rd2 = r_slots rd1 /\ r_outcome rd2 = r_outcome rd1.
Proof.
  intros Hnd rd1 rd2.
  assert (Hslots : forall i e, queries !! i = Some e ->
            r_slots rd1 !! i =
              Some (useState slots i (initial_of createQueryKey (Some reg) e)))
    by (intros i e Hi; by apply render_slots_lookup).
  split.
  - unfold rd2. rewrite render_slots.
    transitivity
      (imap (fun i e =>
               useState slots i (initial_of createQueryKey (Some reg) e))
            queries); [|symmetry; apply render_slots].
    apply imap_ext. intros i e Hi. unfold useState at 1.
    by rewrite (Hslots i e Hi).
  - unfold rd2. set (ms := r_slots rd1) in *. clearbody ms.
    unfold rd1, useQueries. cbn [r_outcome]. f_equal.
    apply map_eq. intros name.
    destruct (decide (name ∈ queries.*1)) as [Hin|Hout].
    + apply list_elem_of_fmap in Hin as (e & -> & He).
      apply list_elem_of_lookup_1 in He as [i Hi].
      rewrite !(loop_results createQueryKey _ _ _ _ i e Hnd Hi).
      change (length (new_slots loop_start) + i)%nat with i.
      unfold useState at 1. by rewrite (Hslots i e Hi).
    + by rewrite !loop_results_other.
Qed.

(** X7.  [useQuery] never returns an [Error] instance: whatever the
    registry, the arguments and the state. *)
Theorem useQuery_never_returns_error (registry : option R) q queryArgs slots e :
  r_outcome (useQuery createQueryKey registry q queryArgs slots)
    <> Returned (RError e).
Proof.
  unfold useQuery. cbn [r_outcome].
  destruct (r_outcome (useQueries _ _ _ _)) as [?|results]; [done|].
  by destruct (default RUndefined (results !! "_default"%string)).
Qed.

(** X8.  The first render of [useQuery] with arguments, under a provider:
    it returns [undefined] when the query has no key, throws the cached
    error when the registry holds one for the key, and returns what
    [probe] answers otherwise. *)
Theorem useQuery_mount (reg : R) q (a : option Args) :
  r_outcome (useQuery createQueryKey (Some reg) q (WithArgs <$> a) []) =
    match createQueryKey q (default [] a) with
    | None => Returned RUndefined
    | Some k =>
        match probe reg k with
        | RError e => Threw e
        | r => Returned r
        end
    end.
Proof.
  destruct a as [a|]; simpl;
    unfold useQuery, useQueries, loop_body, useState; simpl;
    rewrite lookup_insert_eq; simpl;
    destruct (createQueryKey q _); simpl; try done;
    by destruct (probe reg _).
Qed.

(** X9.  The effect of [useQuery] with arguments: with a key it makes one
    [start] call, with a fresh handle and the setter of slot 0, and
    returns a cleanup for that handle; without a key it starts nothing
    and returns no cleanup. *)
Theorem useQuery_effect (reg : R) q (a : option Args) slots rng :
  exists ls,
    r_effect (useQuery createQueryKey (Some reg) q (WithArgs <$> a) slots)
      = Some ls /\
    e_calls (effect randomUUID ls rng) =
      match createQueryKey q (default [] a) with
      | Some k => [Start (randomUUID rng) k q (default [] a) 0%nat]
      | None => []
      end /\
    e_cleanup (effect randomUUID ls rng) =
      match createQueryKey q (default [] a) with
      | Some _ => Some [randomUUID rng]
      | None => None
      end.
Proof.
  eexists. split; [reflexivity|].
  destruct a as [a|]; simpl; unfold effect; simpl;
    by destruct (createQueryKey q _).
Qed.
End HooksMore.

Section EffectMore.
Import Hooks.
Variable randomUUID : nat -> Handle.

Abbreviation start_at rng := (fun (i : nat) (l : Listen) =>
  Start (randomUUID (rng + i)) (default ""%string (queryKey l))
        (l_query l) (l_args l) (setV l)).

Lemma first_undefined (todo : list Listen) :
  Forall (fun l => is_Some (queryKey l)) todo \/
  exists pre l post, todo = pre ++ l :: post /\
    Forall (fun l => is_Some (queryKey l)) pre /\ queryKey l = None.
Proof.
  induction todo as [|l todo IH]; [by left|].
  destruct (queryKey l) as [k|] eqn:Hl.
  - destruct IH as [IH|(pre & l' & post & -> & Hpre & Hl')].
    + left. constructor; [by rewrite Hl|done].
    + right. exists (l :: pre), l', post. split; [done|]. split; [|done].
      constructor; [by rewrite Hl|done].
  - right. exists [], l, todo. by repeat split.
Qed.

Lemma started_handles_imap rng (ls : list Listen) :
  started_handles (imap (start_at rng) ls) =
    randomUUID <$> seq rng (length ls).
Proof.
  revert rng. induction ls as [|l ls IH]; intros rng; [done|].
  transitivity
    (randomUUID (rng + 0) :: started_handles (imap (start_at rng ∘ S) ls));
    [reflexivity|].
  rewrite Nat.add_0_r. cbn [length seq]. rewrite fmap_cons. f_equal.
  rewrite <- (IH (S rng)). f_equal.
  apply imap_ext. intros i x _. simpl. by rewrite Nat.add_succ_r.
Qed.

Lemma is_start_imap rng (ls : list Listen) :
  Forall (fun c => is_start c = true) (imap (start_at rng) ls).
Proof.
  apply Forall_forall. intros c (i & l & -> & _)%elem_of_lookup_imap. done.
Qed.

(** X10.  One run of the effect of [useQueries], for any [listens]: it
    makes [start] calls only, it draws one UUID per [start], and when it
    returns a cleanup, the cleanup holds the started handles, one per
    element of [listens]; when it returns none, it started fewer. *)
Theorem effect_accounting (listens : list Listen) rng :
  let run := effect randomUUID listens rng in
  Forall (fun c => is_start c = true) (e_calls run) /\
  e_rng run = (rng + length (e_calls run))%nat /\
  started_handles (e_calls run) =
    randomUUID <$> seq rng (length (e_calls run)) /\
  match e_cleanup run with
  | Some ids =>
      ids = started_handles (e_calls run) /\
      length (e_calls run) = length listens
  | None => (length (e_calls run) < length listens)%nat
  end.
Proof.
  unfold effect.
  destruct (first_undefined listens)
    as [Hall|(pre & l & post & -> & Hpre & Hl)].
  - rewrite effect_loop_defined by done. simpl.
    rewrite started_handles_imap, !length_imap.
    split; [apply is_start_imap|]. split; [done|]. split; [done|].
    split; [|done]. apply imap_seq.
  - rewrite effect_loop_undefined by done. simpl.
    rewrite started_handles_imap, !length_imap.
    split; [apply is_start_imap|]. split; [done|]. split; [done|].
    rewrite length_app. simpl. lia.
Qed.

(** X11.  When [crypto.randomUUID] never repeats, the handles started by
    one run of the effect and by the next run are pairwise distinct. *)
Theorem effect_handles_distinct (listens listens' : list Listen) rng :
  Inj (=) (=) randomUUID ->
  let run := effect randomUUID listens rng in
  let run' := effect randomUUID listens' (e_rng run) in
  NoDup (started_handles (e_calls run) ++ started_handles (e_calls run')).
Proof.
  intros Hinj run run'.
  destruct (effect_accounting listens rng) as (_ & Hrng & Hh & _).
  destruct (effect_accounting listens' (e_rng run)) as (_ & _ & Hh' & _).
  fold run in Hrng, Hh. fold run' in Hh'.
  rewrite Hh, Hh', Hrng, <- fmap_app, <- seq_app.
  apply (NoDup_fmap_2 _), NoDup_seq.
Qed.
End EffectMore.

Lemma effect_handles_distinct_witness :
  let uuid := fun n : nat => pretty n in
  let l := {| Hooks.queryKey := Some "k"%string; Hooks.l_query := "q";
              Hooks.l_args := []; Hooks.setV := 0%nat |} in
  let run := Hooks.effect uuid [l; l] 0%nat in
  let run' := Hooks.effect uuid [l] (Hooks.e_rng run) in
  Inj (=) (=) uuid /\
  started_handles (Hooks.e_calls run) ++ started_handles (Hooks.e_calls run')
    = ["0"; "1"; "2"]%string /\
  NoDup (started_handles (Hooks.e_calls run)
           ++ started_handles (Hooks.e_calls run')).
Proof.
  intros uuid l run run'.
  assert (Hinj : Inj (=) (=) uuid) by (unfold uuid; apply _).
  split; [exact Hinj|]. split; [reflexivity|].
  exact (effect_handles_distinct uuid [l; l] [l] 0%nat Hinj).
Defined.

Section CliMore.
Import Cli.

(** X12.  Without a file path, when the introspection command exits with
    status 0: [getFunctionSpec] returns what the command printed, the
    temporary file is gone, the console is untouched, and the one command
    spawned is [npx convex function-spec], with [--prod] when the prod
    flag is set. *)
Theorem getFunctionSpec_success env prod w :
  fs w !! tempFile env <> Some Directory ->
  status (spawnSync env "npx" (command prod)) = Some 0 ->
  getFunctionSpec env prod None w =
    ({| fs := delete (tempFile env) (fs w);
        console := console w;
        spawned := spawned w ++ ["npx"%string :: command prod] |},
     Return (stdout (spawnSync env "npx" (command prod)))).
Proof.
  intros Hdir Hstatus. unfold getFunctionSpec, try_block, openSync. simpl.
  destruct (fs w !! tempFile env) as [[c|]|] eqn:Hf; try done;
    simpl; rewrite bool_decide_eq_true_2 by done;
    unfold readFileSync; simpl; rewrite lookup_insert_eq;
    unfold finally_block, unlinkSync; simpl; rewrite lookup_insert_eq;
    simpl; by rewrite !delete_insert_eq.
Qed.

(** X13.  A file path that names a directory passes the existence check
    and the read throws: the exception leaves [getFunctionSpec], with no
    message and no exit. *)
Theorem getFunctionSpec_directory_path env prod w path :
  path <> ""%string -> truthy prod = false ->
  fs w !! path = Some Directory ->
  getFunctionSpec env prod (Some path) w = (w, Throw "EISDIR").
Proof.
  intros Hp Hprod Hdir. unfold getFunctionSpec, given.
  rewrite bool_decide_eq_true_2, Hprod by done. simpl.
  unfold existsSync, readFileSync. rewrite Hdir.
  by rewrite bool_decide_eq_true_2 by eauto.
Qed.

(** An empty string as file path counts as no file path, also together
    with the prod flag. *)
Lemma getFunctionSpec_empty_path env prod w :
  getFunctionSpec env prod (Some ""%string) w
    = getFunctionSpec env prod None w.
Proof. reflexivity. Qed.

(** X14.  With a file path given, [getFunctionSpec] changes no file and
    spawns no command, and it writes on the console only when it exits
    with status 1. *)
Theorem getFunctionSpec_path_reads_only env prod w path :
  path <> ""%string ->
  let run := getFunctionSpec env prod (Some path) w in
  fs run.1 = fs w /\ spawned run.1 = spawned w /\
  (run.2 = Exit 1 \/ console run.1 = console w).
Proof.
  intros Hp. unfold getFunctionSpec, given.
  rewrite bool_decide_eq_true_2 by done. simpl.
  destruct (truthy prod); simpl; [by auto|].
  destruct (existsSync (fs w) path); simpl; [|by auto].
  destruct (readFileSync (fs w) path); simpl; auto.
Qed.

(** X15.  Without a file path no exception leaves [getFunctionSpec]: it
    returns, with the temporary file gone and nothing written on the
    console, or it exits with status 1 after the one retrieval message. *)
Theorem getFunctionSpec_no_path_outcomes env prod w :
  let run := getFunctionSpec env prod None w in
  (exists content, run.2 = Return content /\
     fs run.1 !! tempFile env = None /\ console run.1 = console w) \/
  (run.2 = Exit 1 /\ console run.1 = console w ++ [RetrievalFailed]).
Proof.
  unfold getFunctionSpec, try_block, openSync. simpl.
  destruct (fs w !! tempFile env) as [[c|]|] eqn:Hf; simpl;
    try (by right);
    (destruct (bool_decide (status _ = Some 0)); simpl; [|by right];
     unfold readFileSync; simpl; rewrite lookup_insert_eq; left;
     eexists; split; [reflexivity|];
     unfold finally_block, unlinkSync; simpl; rewrite lookup_insert_eq;
     simpl; by rewrite lookup_delete_eq).
Qed.


(** X17.  When the path of the temporary file is taken by a directory,
    [getFunctionSpec] exits with status 1 after the retrieval message,
    without spawning the command. *)
Theorem getFunctionSpec_temp_is_directory env prod w :
  fs w !! tempFile env = Some Directory ->
  getFunctionSpec env prod None w = (log RetrievalFailed w, Exit 1).
Proof.
  intros Hdir. unfold getFunctionSpec, try_block, openSync. simpl.
  by rewrite Hdir.
Qed.

Lemma chars_app (s t : string) :
  Strings.String.list_ascii_of_string (s +:+ t) =
    Strings.String.list_ascii_of_string s
      ++ Strings.String.list_ascii_of_string t.
Proof. induction s as [|c s IH]; simpl; [done|]. by rewrite IH. Qed.

Lemma string_app_inv_tail (s s' t : string) : s +:+ t = s' +:+ t -> s = s'.
Proof.
  intros H. apply (f_equal Strings.String.list_ascii_of_string) in H.
  rewrite !chars_app in H. apply app_inv_tail in H.
  rewrite <- (Strings.String.string_of_list_ascii_of_string s),
    <- (Strings.String.string_of_list_ascii_of_string s').
  by rewrite H.
Qed.

(** X18.  For one temporary directory, two runs use the same temporary
    file exactly when [Date.now()] gives them the same millisecond. *)
Theorem tempFile_same_millisecond env env' :
  tmpdir env = tmpdir env' ->
  (tempFile env = tempFile env' <-> now env = now env').
Proof.
  intros Hdir. unfold tempFile, path_join. rewrite Hdir. split.
  - intros H. do 3 apply (inj (String.app _)) in H.
    apply string_app_inv_tail in H. by apply (inj pretty).
  - by intros ->.
Qed.
End CliMore.

Lemma useQueries_rerender_keeps_state_witness :
  length [RUndefined; RValue (VNum 7)] = length sample_queries /\
  "b"%string <> proto_key /\
  NoDup sample_queries.*1 /\
  sample_queries !! 1%nat
    = Some ("b"%string, {| Hooks.query := "listMessages";
                           Hooks.args := [("h"%string, VOpaque 0)] |}) /\
  [RUndefined; RValue (VNum 7)] !! 1%nat = Some (RValue (VNum 7)) /\
  exists results,
    Hooks.r_outcome (Hooks.useQueries KeyDeriver.derive (Some sample_registry)
                       sample_queries [RUndefined; RValue (VNum 7)])
      = Hooks.Returned results /\
    results !! "b"%string = Some (RValue (VNum 7)).
Proof.
  assert (Hnd : NoDup sample_queries.*1)
    by (apply (bool_decide_unpack _); vm_compute; exact I).
  assert (Hb : "b"%string <> proto_key) by discriminate.
  split; [reflexivity|]. split; [exact Hb|].
  split; [exact Hnd|]. split; [reflexivity|]. split; [reflexivity|].
  exact (useQueries_rerender_keeps_state KeyDeriver.derive sample_registry
           sample_queries [RUndefined; RValue (VNum 7)] 1%nat _ _
           eq_refl Hnd eq_refl Hb eq_refl).
Defined.

Lemma useQueries_same_keys_witness :
  same_hooks [RUndefined; RValue (VNum 7)] sample_queries /\
  (proto_key ∉ sample_queries.*1) /\
  exists results,
    Hooks.r_outcome (Hooks.useQueries KeyDeriver.derive (Some sample_registry)
                       sample_queries [RUndefined; RValue (VNum 7)])
      = Hooks.Returned results /\
    dom results = list_to_set sample_queries.*1.
Proof.
  assert (Hs : same_hooks [RUndefined; RValue (VNum 7)] sample_queries)
    by (right; reflexivity).
  assert (Hp : proto_key ∉ sample_queries.*1)
    by (apply (bool_decide_unpack _); vm_compute; exact I).
  split; [exact Hs|]. split; [exact Hp|].
  exact (useQueries_same_keys KeyDeriver.derive sample_registry
           sample_queries [RUndefined; RValue (VNum 7)] Hs Hp).
Defined.

Lemma useQueries_probes_every_render_witness :
  same_hooks [RUndefined; RValue (VNum 7)] sample_queries /\
  Hooks.r_calls (Hooks.useQueries KeyDeriver.derive (Some sample_registry)
                   sample_queries [RUndefined; RValue (VNum 7)]) =
    [Hooks.CreateQueryKey "listMessages" [];
     Hooks.Probe (default ""%string (KeyDeriver.derive "listMessages" []));
     Hooks.CreateQueryKey "listMessages" [("h"%string, VOpaque 0)]].
Proof.
  assert (Hs : same_hooks [RUndefined; RValue (VNum 7)] sample_queries)
    by (right; reflexivity).
  split; [exact Hs|].
  rewrite (useQueries_probes_every_render KeyDeriver.derive sample_registry
             sample_queries [RUndefined; RValue (VNum 7)] Hs).
  reflexivity.
Defined.

Lemma useQueries_mount_results_witness :
  NoDup sample_queries.*1 /\
  (exists results,
    Hooks.r_outcome (Hooks.useQueries KeyDeriver.derive (Some sample_registry)
                       sample_queries [])
      = Hooks.Returned results /\
    results !! "a"%string = Some (RValue VNull)) /\
  (exists results,
    Hooks.r_outcome (Hooks.useQueries KeyDeriver.derive (Some sample_registry)
                       sample_queries [])
      = Hooks.Returned results /\
    results !! "b"%string = Some RUndefined).
Proof.
  assert (Hnd : NoDup sample_queries.*1)
    by (apply (bool_decide_unpack _); vm_compute; exact I).
  split; [exact Hnd|]. split.
  - exact (useQueries_mount_results KeyDeriver.derive sample_registry
             sample_queries 0%nat _ Hnd eq_refl).
  - exact (useQueries_mount_results KeyDeriver.derive sample_registry
             sample_queries 1%nat _ Hnd eq_refl).
Defined.

Lemma set_state_isolated_witness :
  let mounted :=
    Hooks.useQueries KeyDeriver.derive (Some sample_registry)
      sample_queries [] in
  let rd :=
    Hooks.useQueries KeyDeriver.derive (Some sample_registry) sample_queries
      (Hooks.set_state 1%nat (RError "boom") (Hooks.r_slots mounted)) in
  NoDup sample_queries.*1 /\
  exists before after : gmap string JsResult,
    Hooks.r_outcome mounted = Hooks.Returned before /\
    Hooks.r_outcome rd = Hooks.Returned after /\
    after !! "b"%string = Some (RError "boom") /\
    after !! "a"%string = before !! "a"%string.
Proof.
  intros mounted rd.
  assert (Hnd : NoDup sample_queries.*1)
    by (apply (bool_decide_unpack _); vm_compute; exact I).
  split; [exact Hnd|].
  destruct (set_state_isolated KeyDeriver.derive sample_registry
              sample_registry sample_queries 1%nat _ (RError "boom")
              Hnd eq_refl)
    as (before & after & Hb & Ha & Hset & Hother).
  exists before, after. split; [exact Hb|]. split; [exact Ha|].
  split; [exact Hset|].
  exact (Hother 0%nat _ (fun H => O_S _ H) eq_refl).
Defined.

Lemma rerender_stable_witness :
  NoDup sample_queries.*1 /\
  Hooks.r_outcome
    (Hooks.useQueries KeyDeriver.derive (Some Registry.empty) sample_queries
       (Hooks.r_slots
          (Hooks.useQueries KeyDeriver.derive (Some sample_registry)
             sample_queries []))) =
  Hooks.r_outcome
    (Hooks.useQueries KeyDeriver.derive (Some sample_registry)
       sample_queries []).
Proof.
  assert (Hnd : NoDup sample_queries.*1)
    by (apply (bool_decide_unpack _); vm_compute; exact I).
  split; [exact Hnd|].
  exact (proj2 (rerender_stable KeyDeriver.derive sample_registry
                  Registry.empty sample_queries [] Hnd)).
Defined.

Lemma getFunctionSpec_success_witness :
  Cli.fs Cli.fresh_world !! Cli.tempFile working_env <> Some Cli.Directory /\
  Cli.status (Cli.spawnSync working_env "npx" (Cli.command (Some true)))
    = Some 0 /\
  Cli.getFunctionSpec working_env (Some true) None Cli.fresh_world =
    ({| Cli.fs := ∅; Cli.console := [];
        Cli.spawned := [["npx"; "convex"; "function-spec"; "--prod"]%string] |},
     Cli.Return "{}").
Proof.
  assert (H1 : Cli.fs Cli.fresh_world !! Cli.tempFile working_env
               <> Some Cli.Directory) by discriminate.
  assert (H2 : Cli.status (Cli.spawnSync working_env "npx"
                 (Cli.command (Some true))) = Some 0) by reflexivity.
  split; [exact H1|]. split; [exact H2|].
  rewrite (getFunctionSpec_success working_env (Some true) Cli.fresh_world
             H1 H2).
  simpl. by rewrite delete_empty.
Defined.

Lemma getFunctionSpec_directory_path_witness :
  let w := {| Cli.fs := {[ "specs"%string := Cli.Directory ]};
              Cli.console := []; Cli.spawned := [] |} in
  "specs"%string <> ""%string /\ Cli.truthy None = false /\
  Cli.fs w !! "specs"%string = Some Cli.Directory /\
  Cli.getFunctionSpec working_env None (Some "specs"%string) w
    = (w, Cli.Throw "EISDIR").
Proof.
  intros w.
  assert (Hp : "specs"%string <> ""%string) by discriminate.
  assert (Hd : Cli.fs w !! "specs"%string = Some Cli.Directory)
    by reflexivity.
  split; [exact Hp|]. split; [reflexivity|]. split; [exact Hd|].
  exact (getFunctionSpec_directory_path working_env None w "specs"
           Hp eq_refl Hd).
Defined.

Lemma getFunctionSpec_path_reads_only_witness :
  "missing.json"%string <> ""%string /\
  Cli.fs (Cli.getFunctionSpec working_env (Some true)
            (Some "missing.json"%string)
            Cli.fresh_world).1 = Cli.fs Cli.fresh_world /\
  Cli.spawned (Cli.getFunctionSpec working_env (Some true)
                 (Some "missing.json"%string) Cli.fresh_world).1 = [].
Proof.
  assert (Hp : "missing.json"%string <> ""%string) by discriminate.
  split; [exact Hp|].
  destruct (getFunctionSpec_path_reads_only working_env (Some true)
              Cli.fresh_world "missing.json" Hp) as (Hfs & Hsp & _).
  split; [exact Hfs|exact Hsp].
Defined.


Lemma getFunctionSpec_temp_is_directory_witness :
  let w := {| Cli.fs := {[ Cli.tempFile working_env := Cli.Directory ]};
              Cli.console := []; Cli.spawned := [] |} in
  Cli.fs w !! Cli.tempFile working_env = Some Cli.Directory /\
  Cli.getFunctionSpec working_env None None w
    = (Cli.log Cli.RetrievalFailed w, Cli.Exit 1).
Proof.
  intros w.
  assert (Hd : Cli.fs w !! Cli.tempFile working_env = Some Cli.Directory)
    by apply lookup_singleton_eq.
  split; [exact Hd|].
  exact (getFunctionSpec_temp_is_directory working_env None w Hd).
Defined.

Lemma tempFile_same_millisecond_witness :
  Cli.tmpdir working_env = Cli.tmpdir Cli.failing_env /\
  Cli.now working_env = Cli.now Cli.failing_env /\
  Cli.tempFile working_env = Cli.tempFile Cli.failing_env.
Proof.
  assert (Hd : Cli.tmpdir working_env = Cli.tmpdir Cli.failing_env)
    by reflexivity.
  split; [exact Hd|]. split; [reflexivity|].
  exact (proj2 (tempFile_same_millisecond working_env Cli.failing_env Hd)
           eq_refl).
Defined.
